(** * SelectFromQuadraticModel: a shallow embedding of
      [dwave/plugins/sklearn/transformers.py]

    The feature selector builds a constrained quadratic model (CQM) from the
    correlation matrix of the features and the label, hands it to a hybrid
    solver, and turns the solver's best feasible sample into a boolean mask.

    Conventions of the embedding:
    - Python floats are idealised as rationals ([Q]); coefficients are
      compared with [Qeq].
    - Python exceptions are values of [exn]; a raising computation returns
      [inl e].
    - The instance ([self]) and the solver are the only effects; [fit] and
      [unfit] run in a small state-and-exception monad whose world holds the
      instance and the log of solver calls.
    - The temp-file backed [np.memmap] buffers of [correlation_cqm] are plain
      matrices here; I/O failures of the backing store are not modelled.
    - An exception carries its class and its message.  The messages of the
      solver client are its own ([msg_client]); the client is taken to raise
      a ValueError, a RuntimeError or an exception of a class the selector
      never raises itself. *)

From Stdlib Require Import QArith Qabs String.
From stdpp Require Import gmap list.

Local Open Scope Z_scope.

(** ** Exceptions *)

Inductive message : Type :=
| msg_alpha_range          (* "alpha must be between 0 and 1, given ..." *)
| msg_method               (* "method must be one of ..., given ..." *)
| msg_num_features         (* "num_features must be a positive integer, ..." *)
| msg_X_ndim               (* "X must be a 2-dimensional array-like" *)
| msg_y_ndim               (* "y must be a 1-dimensional array-like" *)
| msg_broadcast            (* numpy: "could not broadcast input array ..." *)
| msg_zero_size_iteration  (* numpy: "Iteration of zero-sized operands is not enabled" *)
| msg_client (text : string) (* a message of the solver client *)
| msg_sampler_init         (* "Instantiation of a Leap hybrid solver failed ..." *)
| msg_no_feasible          (* "no feasible solutions found by the hybrid solver" *)
| msg_empty_sampleset      (* dimod: "SampleSet is empty" *)
| msg_fit_not_run          (* "fit hasn't been run yet" *)
| msg_no_attribute (name : string).

Inductive exn : Type :=
| ValueError (m : message)
| RuntimeError (m : message)
| AttributeError (m : message)
| KeyError (key : nat)
| NotFittedError
| SolverRaised (tag : nat).   (* an exception of another class, from the solver client *)

Definition result (A : Type) : Type := (exn + A)%type.

(** ** Arrays *)

(** A numpy array after [np.asarray]: its shape and its elements in C order. *)
Record ndarray : Type := { shape : list nat; data : list Q }.

Definition ndim (a : ndarray) : nat := length (shape a).

(** [np.atleast_2d]: a scalar becomes 1x1, a vector of length n becomes 1xn,
    anything of two or more dimensions is returned as it is. *)
Definition atleast_2d (a : ndarray) : ndarray :=
  match shape a with
  | [] => {| shape := [1%nat; 1%nat]; data := data a |}
  | [n] => {| shape := [1%nat; n]; data := data a |}
  | _ => a
  end.

(** [a.shape[k]] *)
Definition shape_at (a : ndarray) (k : nat) : nat := nth k (shape a) 0%nat.

Abbreviation matrix := (list (list Q)).

Definition entry (M : matrix) (i j : nat) : Q :=
  default 0%Q (M !! i ≫= fun row => row !! j).

(** Row [r] of a 2-dimensional array. *)
Definition row_of (a : ndarray) (r : nat) : list Q :=
  take (shape_at a 1) (drop (r * shape_at a 1) (data a)).

Definition rows_of (a : ndarray) : matrix :=
  map (row_of a) (seq 0 (shape_at a 0)).

(** [X_copy[:, :-1] = X; X_copy[:, -1] = y]: the label is appended as the
    last column.  numpy broadcasts a length-1 [y] and rejects any other
    length different from the number of rows. *)
Definition augment (X y : ndarray) : result matrix :=
  let n := shape_at X 0 in
  let k := shape_at y 0 in
  if bool_decide (k = n) then
    inr (imap (fun r row => row ++ [nth r (data y) 0%Q]) (rows_of X))
  else if bool_decide (k = 1%nat) then
    inr (map (fun row => row ++ [nth 0 (data y) 0%Q]) (rows_of X))
  else inl (ValueError msg_broadcast).

(** [np.absolute(a, out=a)] *)
Definition np_absolute (M : matrix) : matrix := map (map Qabs) M.

(** [a[:, -1]] *)
Definition last_column (M : matrix) : list Q :=
  map (fun row => default 0%Q (last row)) M.

(** [np.fill_diagonal(a, val)] with an array [val] holding one value per
    row: [a[i, i] = val[i]]. *)
Definition fill_diagonal (M : matrix) (val : list Q) : matrix :=
  imap (fun i row => match val !! i with
                     | Some v => <[i := v]> row
                     | None => row
                     end) M.

(** [a[:-1, :-1]] *)
Definition but_last {A} (l : list A) : list A := take (pred (length l)) l.

Definition drop_last_row_col (M : matrix) : matrix :=
  but_last (map but_last M).

Definition array_size (M : matrix) : nat := length (concat M).

(** [np.nditer(a, flags=['multi_index'], ...)]: without the flag
    [zerosize_ok] the construction of the iterator raises on an array
    without elements. *)
Definition np_nditer (M : matrix) : result matrix :=
  if (array_size M =? 0)%nat then inl (ValueError msg_zero_size_iteration)
  else inr M.

(** The iterator consumed as the generator of the tuples "multi_index
    followed by x": the elements in C order, each with its row and column
    index. *)
Definition nditer_multi_index (M : matrix) : list (nat * nat * Q) :=
  concat (imap (fun i row => imap (fun j x => (i, j, x)) row) M).

(** ** Quadratic models (the part of dimod the selector relies on) *)

Record QuadraticModel : Type := {
  linear : gmap nat Q;
  quadratic : gmap (nat * nat) Q;
  offset : Q
}.

Definition empty_qm : QuadraticModel :=
  {| linear := ∅; quadratic := ∅; offset := 0%Q |}.

(** Interactions are stored once per unordered pair. *)
Definition pair_key (u v : nat) : nat * nat :=
  if (u <? v)%nat then (u, v) else (v, u).

Definition get_linear (qm : QuadraticModel) (v : nat) : Q :=
  default 0%Q (linear qm !! v).

Definition get_quadratic (qm : QuadraticModel) (u v : nat) : Q :=
  default 0%Q (quadratic qm !! pair_key u v).

Definition add_linear (v : nat) (bias : Q) (qm : QuadraticModel) : QuadraticModel :=
  {| linear := <[v := (get_linear qm v + bias)%Q]> (linear qm);
     quadratic := quadratic qm;
     offset := offset qm |}.

(** [add_quadratic(u, v, bias)] on binary variables: biases of the same pair
    accumulate, and since x*x = x for a binary x a self-interaction is a
    linear bias. *)
Definition add_quadratic (u v : nat) (bias : Q) (qm : QuadraticModel) : QuadraticModel :=
  if (u =? v)%nat then add_linear u bias qm
  else {| linear := linear qm;
          quadratic := <[pair_key u v := (get_quadratic qm u v + bias)%Q]> (quadratic qm);
          offset := offset qm |}.

Inductive sense : Type := SenseEq | SenseLe.   (* '==' and '<=' *)

Record constraint : Type := {
  lhs : list (nat * Z);
  cmp : sense;
  rhs : Z
}.

Record CQM : Type := {
  variables : list nat;
  objective : QuadraticModel;
  constraints : list constraint
}.

Definition empty_cqm : CQM :=
  {| variables := []; objective := empty_qm; constraints := [] |}.

Definition num_variables (cqm : CQM) : nat := length (variables cqm).

(** [cqm.add_variables(dimod.BINARY, n)]: the labels are [range(n)]. *)
Definition add_variables (n : nat) (cqm : CQM) : CQM :=
  {| variables := variables cqm ++ filter (fun v => v ∉ variables cqm) (seq 0 n);
     objective := objective cqm;
     constraints := constraints cqm |}.

Definition add_constraint (terms : list (nat * Z)) (s : sense) (r : Z) (cqm : CQM) : CQM :=
  {| variables := variables cqm;
     objective := objective cqm;
     constraints := constraints cqm ++ [{| lhs := terms; cmp := s; rhs := r |}] |}.

(** [cqm.set_objective(terms)] with an iterable of [(u, v, bias)] triples:
    the previous objective is discarded and every triple is added. *)
Definition objective_of_terms (terms : list (nat * nat * Q)) : QuadraticModel :=
  fold_left (fun qm t => add_quadratic t.1.1 t.1.2 t.2 qm) terms empty_qm.

Definition set_objective (terms : list (nat * nat * Q)) (cqm : CQM) : CQM :=
  {| variables := variables cqm;
     objective := objective_of_terms terms;
     constraints := constraints cqm |}.

(** ** The selector *)

Definition ACCEPTED_METHODS : list string := ["correlation"%string].

Definition in_unit_interval (alpha : Q) : bool :=
  Qle_bool 0 alpha && Qle_bool alpha 1.

(** Lines 190-198: the matrix that is iterated, [correlations[:-1, :-1]]
    after [np.absolute] and [np.fill_diagonal]. *)
Definition objective_matrix (correlations : matrix) (alpha : Q) : matrix :=
  let correlations := np_absolute correlations in
  let correlations :=
    fill_diagonal correlations
      (map (fun c => (- c * alpha)%Q) (last_column correlations)) in
  drop_last_row_col correlations.

(** Line 199: the triples the generator hands to [set_objective]. *)
Definition objective_terms (correlations : matrix) (alpha : Q) : list (nat * nat * Q) :=
  nditer_multi_index (objective_matrix correlations alpha).

(** Lines 190-199: from the matrix written by [corrcoef] to the model with
    its objective set. *)
Definition assemble_objective (correlations : matrix) (alpha : Q) (cqm : CQM) : result CQM :=
  match np_nditer (objective_matrix correlations alpha) with
  | inl e => inl e
  | inr it => inr (set_objective (nditer_multi_index it) cqm)
  end.

(** *** Solver responses *)

Record Sample : Type := {
  sample : gmap nat Z;      (* the assignment, by variable label *)
  energy : Q;
  is_feasible : bool
}.

Definition SampleSet : Type := list Sample.

(** [sampleset.filter(lambda d: d.is_feasible)] keeps the solver's order. *)
Definition filter_feasible (ss : SampleSet) : SampleSet :=
  filter (fun d => is_feasible d = true) ss.

Fixpoint insert_by_energy (d : Sample) (l : SampleSet) : SampleSet :=
  match l with
  | [] => [d]
  | d' :: l' =>
      if Qle_bool (energy d) (energy d') then d :: l
      else d' :: insert_by_energy d l'
  end.

(** The stable ascending sort by energy behind [SampleSet.first]. *)
Definition sort_by_energy (ss : SampleSet) : SampleSet :=
  foldr insert_by_energy [] ss.

(** [sampleset.first]: the first record in ascending energy order. *)
Definition first (ss : SampleSet) : result Sample :=
  match sort_by_energy ss with
  | d :: _ => inr d
  | [] => inl (ValueError msg_empty_sampleset)
  end.

(** [np.fromiter((lowest[v] for v in variables), count=..., dtype=bool)]:
    a value is true when it is not zero; [lowest] is a dict, so a label it
    does not hold raises KeyError. *)
Fixpoint fromiter_bool (lowest : gmap nat Z) (vars : list nat) : result (list bool) :=
  match vars with
  | [] => inr []
  | v :: vars' =>
      match lowest !! v with
      | None => inl (KeyError v)
      | Some x =>
          match fromiter_bool lowest vars' with
          | inl e => inl e
          | inr bs => inr (negb (x =? 0) :: bs)
          end
      end
  end.

(** What a feasible sample of a model is: every variable is 0 or 1 and every
    constraint holds. *)
Definition lhs_value (terms : list (nat * Z)) (s : gmap nat Z) : Z :=
  foldr (fun t acc => t.2 * default 0 (s !! t.1) + acc) 0 terms.

Definition constraint_holds (s : gmap nat Z) (c : constraint) : bool :=
  match cmp c with
  | SenseEq => lhs_value (lhs c) s =? rhs c
  | SenseLe => lhs_value (lhs c) s <=? rhs c
  end.

Definition binary_value (s : gmap nat Z) (v : nat) : bool :=
  match s !! v with
  | Some x => (x =? 0) || (x =? 1)
  | None => false
  end.

Definition satisfies (cqm : CQM) (s : gmap nat Z) : bool :=
  forallb (binary_value s) (variables cqm) && forallb (constraint_holds s) (constraints cqm).

(** [sum(mask)] *)
Definition sum_mask (mask : list bool) : Z :=
  foldr (fun b acc => Z.b2z b + acc) 0 mask.

(** *** The instance and the world it runs in *)

Record Selector : Type := {
  _alpha : Q;
  _method : string;
  _num_features : Z;
  _time_limit : option Q;
  _mask : option (list bool)     (* [None]: the attribute does not exist *)
}.

Definition with_mask (mask : option (list bool)) (s : Selector) : Selector :=
  {| _alpha := _alpha s; _method := _method s; _num_features := _num_features s;
     _time_limit := _time_limit s; _mask := mask |}.

(** What the solver collaborator sees. *)
Inductive solver_event : Type :=
| SamplerCreated
| SampleCqm (cqm : CQM) (time_limit : option Q).

Record World : Type := {
  this : Selector;
  solver_log : list solver_event     (* oldest first *)
}.

(** State and exceptions: a raise keeps the world as it was at the raise. *)
Definition M (A : Type) : Type := World -> result A * World.

Global Instance M_ret : MRet M := fun A a w => (inr a, w).
Global Instance M_bind : MBind M := fun A B f m w =>
  match m w with
  | (inl e, w') => (inl e, w')
  | (inr a, w') => f a w'
  end.

Definition raise {A} (e : exn) : M A := fun w => (inl e, w).

Definition lift {A} (r : result A) : M A := fun w => (r, w).

Definition get_self : M Selector := fun w => (inr (this w), w).

Definition set_mask (mask : list bool) : M unit := fun w =>
  (inr tt, {| this := with_mask (Some mask) (this w); solver_log := solver_log w |}).

Definition del_mask : M unit := fun w =>
  match _mask (this w) with
  | None => (inl (AttributeError (msg_no_attribute "_mask")), w)
  | Some _ => (inr tt, {| this := with_mask None (this w); solver_log := solver_log w |})
  end.

Definition log_event (ev : solver_event) : M unit := fun w =>
  (inr tt, {| this := this w; solver_log := solver_log w ++ [ev] |}).

(** What the solver client raises, other than the two errors [fit]
    catches. *)
Inductive client_error : Type :=
| ClientValueError (text : string)
| ClientRuntimeError (text : string)
| ClientOtherError (tag : nat).

Definition client_exception (c : client_error) : exn :=
  match c with
  | ClientValueError text => ValueError (msg_client text)
  | ClientRuntimeError text => RuntimeError (msg_client text)
  | ClientOtherError tag => SolverRaised tag
  end.

(** Outcome of constructing [LeapHybridCQMSampler()]. *)
Inductive sampler_outcome : Type :=
| SamplerReady
| ConfigFileError
| SolverAuthenticationError
| SamplerRaised (c : client_error).

(** Outcome of [sampler.sample_cqm(cqm, time_limit=...)]. *)
Inductive solver_response : Type :=
| Returned (sampleset : SampleSet)
| Raised (c : client_error).

(** [__init__] *)
Definition init (alpha : Q) (method : string) (num_features : Z)
    (time_limit : option Q) : result Selector :=
  if negb (in_unit_interval alpha) then inl (ValueError msg_alpha_range)
  else if negb (existsb (String.eqb method) ACCEPTED_METHODS) then inl (ValueError msg_method)
  else if num_features <=? 0 then inl (ValueError msg_num_features)
  else inr {| _alpha := alpha; _method := method; _num_features := num_features;
              _time_limit := time_limit; _mask := None |}.

(** [__sklearn_is_fitted__] *)
Definition sklearn_is_fitted (s : Selector) : bool :=
  match _mask s with Some _ => true | None => false end.

(** [sklearn.utils.validation.check_is_fitted] *)
Definition check_is_fitted : M unit :=
  s ← get_self;
  if sklearn_is_fitted s then mret tt else raise NotFittedError.

(** [_get_support_mask] *)
Definition _get_support_mask : M (list bool) :=
  _ ← check_is_fitted;
  s ← get_self;
  match _mask s with
  | Some mask => mret mask
  | None => raise (RuntimeError msg_fit_not_run)
  end.

(** [unfit] *)
Definition unfit : M unit := del_mask.

Section Selector.

(** [dwave.plugins.sklearn.utilities.corrcoef(X_copy, out=correlations,
    rowvar=False, copy=False)]: entry (i, j) of what it writes into the
    output buffer. *)
Variable corrcoef : matrix -> nat -> nat -> Q.

Definition correlation_cqm (X y : ndarray) (alpha : Q) (num_features : Z)
    (strict : bool) : result CQM :=
  let X := atleast_2d X in
  if negb (ndim X =? 2)%nat then inl (ValueError msg_X_ndim)
  else if negb (ndim y =? 1)%nat then inl (ValueError msg_y_ndim)
  else if negb (in_unit_interval alpha) then inl (ValueError msg_alpha_range)
  else if num_features <=? 0 then inl (ValueError msg_num_features)
  else
    let cqm := add_variables (shape_at X 1) empty_cqm in
    let cqm :=
      add_constraint (map (fun v => (v, 1)) (variables cqm))
        (if strict then SenseEq else SenseLe) num_features cqm in
    match augment X y with
    | inl e => inl e
    | inr X_copy =>
        let side := S (shape_at X 1) in
        let correlations :=
          map (fun i => map (fun j => corrcoef X_copy i j) (seq 0 side)) (seq 0 side) in
        assemble_objective correlations alpha cqm
    end.

(** The solver collaborator: how constructing the client ends, and what
    [sample_cqm(cqm, time_limit=...)] returns. *)
Variable LeapHybridCQMSampler : sampler_outcome.
Variable sample_cqm : CQM -> option Q -> solver_response.

Definition new_sampler : M unit :=
  _ ← log_event SamplerCreated;
  match LeapHybridCQMSampler with
  | SamplerReady => mret tt
  | ConfigFileError | SolverAuthenticationError => raise (RuntimeError msg_sampler_init)
  | SamplerRaised c => raise (client_exception c)
  end.

Definition call_sample_cqm (cqm : CQM) (time_limit : option Q) : M SampleSet :=
  _ ← log_event (SampleCqm cqm time_limit);
  match sample_cqm cqm time_limit with
  | Returned sampleset => mret sampleset
  | Raised c => raise (client_exception c)
  end.

(** [fit]; it returns [self], which the world already holds.  The [else]
    branch of the method dispatch formats its message with
    [self.acceptable_methods], an attribute the class does not have (it has
    [ACCEPTED_METHODS]), so that branch ends in an AttributeError. *)
Definition fit (X y : ndarray) (alpha : option Q) (num_features : option Z)
    (time_limit : option Q) : M unit :=
  let X := atleast_2d X in
  if negb (ndim X =? 2)%nat then raise (ValueError msg_X_ndim)
  else
    self ← get_self;
    let alpha := match alpha with None => _alpha self | Some a => a end in
    let num_features :=
      match num_features with None => _num_features self | Some k => k end in
    if Z.of_nat (shape_at X 1) <=? num_features then
      set_mask (replicate (shape_at X 1) true)
    else
      cqm ← (if String.eqb (_method self) "correlation"
             then lift (correlation_cqm X y alpha num_features true)
             else raise (AttributeError (msg_no_attribute "acceptable_methods")));
      _ ← new_sampler;
      sampleset ← call_sample_cqm cqm (_time_limit self);
      let filtered := filter_feasible sampleset in
      if (length filtered =? 0)%nat then raise (RuntimeError msg_no_feasible)
      else
        d ← lift (first filtered);
        let lowest := sample d in
        mask ← lift (fromiter_bool lowest (variables cqm));
        set_mask mask.

End Selector.

Arguments fit corrcoef LeapHybridCQMSampler sample_cqm X y alpha num_features time_limit _ : assert.

(** Defaults of the keyword arguments of [fit]. *)
Definition resolve {A} (arg : option A) (dflt : A) : A :=
  match arg with Some a => a | None => dflt end.

(** Number of feature columns [fit] sees. *)
Definition n_columns (X : ndarray) : nat := shape_at (atleast_2d X) 1.

(** A world in which the solver has not been contacted yet. *)
Definition fresh (s : Selector) : World := {| this := s; solver_log := [] |}.

(** ** A small data set and a scripted solver, used to run the model *)

Module Demo.

(** Two observations of three features. *)
Definition X : ndarray :=
  {| shape := [2%nat; 3%nat]; data := [1; 2; 3; 4; 6; 5]%Q |}.

Definition y : ndarray := {| shape := [2%nat]; data := [0; 1]%Q |}.

(** A stand-in for the correlation routine: a symmetric table with
    negative entries off the diagonal. *)
Definition corrcoef (_ : matrix) (i j : nat) : Q :=
  if (i =? j)%nat then 1%Q else (- (Z.of_nat (i + j) # 10))%Q.

Definition assignment (values : list Z) : gmap nat Z :=
  list_to_map (imap (fun v x => (v, x)) values).

Definition infeasible_low : Sample :=
  {| sample := assignment [1; 1; 1]; energy := (-5)%Q; is_feasible := false |}.
Definition feasible_high : Sample :=
  {| sample := assignment [0; 1; 0]; energy := 0%Q; is_feasible := true |}.
Definition feasible_low : Sample :=
  {| sample := assignment [0; 0; 1]; energy := (-1 # 2)%Q; is_feasible := true |}.

Definition solver (_ : CQM) (_ : option Q) : solver_response :=
  Returned [infeasible_low; feasible_high; feasible_low].

Definition solver_without_feasible (_ : CQM) (_ : option Q) : solver_response :=
  Returned [infeasible_low].

Definition selector (num_features : Z) (time_limit : option Q) : Selector :=
  {| _alpha := (1 # 2)%Q; _method := "correlation"; _num_features := num_features;
     _time_limit := time_limit; _mask := None |}.

(** The 4 x 4 table [corrcoef] writes for three features and the label. *)
Definition correlations : matrix :=
  map (fun i => map (fun j => corrcoef [] i j) (seq 0 4)) (seq 0 4).

(** The model built for [X], [y], alpha = 1/2 and one feature to select. *)
Definition cqm : CQM :=
  match correlation_cqm corrcoef X y (1 # 2)%Q 1 true with
  | inr c => c
  | inl _ => empty_cqm
  end.

(** An instance that was fitted before. *)
Definition fitted_selector : Selector :=
  with_mask (Some [true; false; false]) (selector 1 None).

(** A vector of three values, and an empty 2 x 0 matrix. *)
Definition x1 : ndarray := {| shape := [3%nat]; data := [1; 2; 3]%Q |}.
Definition X_no_columns : ndarray := {| shape := [2%nat; 0%nat]; data := [] |}.

End Demo.

(** The time budgets the solver was called with, oldest first. *)
Definition dispatched_time_limits (log : list solver_event) : list (option Q) :=
  omap (fun ev => match ev with
                  | SampleCqm _ tl => Some tl
                  | SamplerCreated => None
                  end) log.

(** The constraint "sum of the variables [cmp] K" over variables 0..m-1. *)
Definition k_hot (m : nat) (strict : bool) (K : Z) : constraint :=
  {| lhs := map (fun v => (v, 1)) (seq 0 m);
     cmp := if strict then SenseEq else SenseLe;
     rhs := K |}.

(** Sum of the biases of the triples whose index pair satisfies [P]. *)
Definition term_sum (P : nat -> nat -> bool) (ts : list (nat * nat * Q)) : Q :=
  foldr (fun t acc => if P t.1.1 t.1.2 then (t.2 + acc)%Q else acc) 0%Q ts.

(** The triples are exactly at index pair (a, b). *)
Definition at_pair (a b : nat) (u v : nat) : bool := (u =? a)%nat && (v =? b)%nat.

(** ** Properties *)

(** *** Arrays *)

Lemma atleast_2d_ndim_le2 (a : ndarray) : (ndim a <= 2)%nat -> ndim (atleast_2d a) = 2%nat.
Proof.
  unfold ndim, atleast_2d. destruct a as [[|n [|n' [|n'' sh]]] d]; simpl; lia.
Qed.

Lemma atleast_2d_ndim_gt2 (a : ndarray) : (2 < ndim a)%nat -> atleast_2d a = a.
Proof.
  unfold ndim, atleast_2d. destruct a as [[|n [|n' [|n'' sh]]] d]; simpl; auto; lia.
Qed.

Lemma atleast_2d_ndim_2 (a : ndarray) : ndim a = 2%nat -> atleast_2d a = a.
Proof.
  unfold ndim, atleast_2d. destruct a as [[|n [|n' [|n'' sh]]] d]; simpl; auto; lia.
Qed.

Lemma atleast_2d_idemp (a : ndarray) : atleast_2d (atleast_2d a) = atleast_2d a.
Proof.
  destruct (le_lt_dec (ndim a) 2) as [Hle|Hgt].
  - apply atleast_2d_ndim_2, atleast_2d_ndim_le2, Hle.
  - now rewrite (atleast_2d_ndim_gt2 a Hgt), (atleast_2d_ndim_gt2 a Hgt).
Qed.

Lemma atleast_2d_ndim_check (a : ndarray) :
  negb (ndim (atleast_2d a) =? 2)%nat = true <-> (2 < ndim a)%nat.
Proof.
  rewrite negb_true_iff, Nat.eqb_neq. split.
  - intros Hne. destruct (le_lt_dec (ndim a) 2) as [Hle|Hgt]; [|exact Hgt].
    now apply atleast_2d_ndim_le2 in Hle.
  - intros Hgt. rewrite (atleast_2d_ndim_gt2 a Hgt). lia.
Qed.

(** *** Construction *)

Lemma init_method_correlation alpha method k tl s :
  init alpha method k tl = inr s -> _method s = "correlation"%string /\ _mask s = None.
Proof.
  unfold init. repeat case_match; try discriminate.
  intros [= <-]. simpl. split; [|reflexivity].
  match goal with H : negb (existsb _ _) = false |- _ => rename H into Hm end.
  apply negb_false_iff in Hm. simpl in Hm. rewrite orb_false_r in Hm.
  apply String.eqb_eq in Hm. exact Hm.
Qed.

Lemma init_rejects alpha method k tl :
  in_unit_interval alpha = false \/ method ∉ ACCEPTED_METHODS \/ k <= 0 ->
  exists m, init alpha method k tl = inl (ValueError m).
Proof.
  intros Hbad. unfold init.
  destruct (in_unit_interval alpha) eqn:Ha; cbn [negb]; [|eauto].
  destruct (existsb (String.eqb method) ACCEPTED_METHODS) eqn:Hm; cbn [negb]; [|eauto].
  destruct (Z.leb_spec k 0) as [Hk|Hk]; [eauto|].
  exfalso. destruct Hbad as [Hbad|[Hbad|Hbad]]; [discriminate| |lia].
  apply Hbad. simpl in Hm. rewrite orb_false_r in Hm. apply String.eqb_eq in Hm.
  subst method. left.
Qed.

(** *** Model construction *)

Lemma filter_not_in_nil (l : list nat) : filter (fun v => v ∉ @nil nat) l = l.
Proof.
  induction l as [|v l IH]; [reflexivity|].
  rewrite filter_cons_True by apply not_elem_of_nil. now rewrite IH.
Qed.

Lemma add_variables_empty (n : nat) : variables (add_variables n empty_cqm) = seq 0 n.
Proof. unfold add_variables. cbn [variables empty_cqm app]. apply filter_not_in_nil. Qed.

(** C9: while the instance is unfitted, [_get_support_mask] raises
    NotFittedError and returns no mask: for an instance that has no mask
    (as every freshly constructed one), and for a fitted instance after
    [unfit]. *)
Theorem get_support_mask_unfitted w :
  (_mask (this w) = None -> _get_support_mask w = (inl NotFittedError, w)) /\
  (forall alpha method k tl, init alpha method k tl = inr (this w) ->
     _get_support_mask w = (inl NotFittedError, w)) /\
  (forall mask, _mask (this w) = Some mask ->
     exists w', unfit w = (inr tt, w') /\
                sklearn_is_fitted (this w') = false /\
                _get_support_mask w' = (inl NotFittedError, w')).
Proof.
  assert (Hnone : forall w0, _mask (this w0) = None ->
            _get_support_mask w0 = (inl NotFittedError, w0)).
  { intros w0 Hm.
    unfold _get_support_mask, check_is_fitted, get_self, raise, mbind, M_bind,
      sklearn_is_fitted.
    now rewrite Hm. }
  split; [apply Hnone|]. split.
  - intros alpha method k tl Hinit. apply Hnone.
    now apply init_method_correlation in Hinit as [_ Hmask].
  - intros mask Hm. unfold unfit, del_mask. rewrite Hm. eexists.
    split; [reflexivity|]. split; [reflexivity|]. apply Hnone. reflexivity.
Qed.

(** *** Matrix entries *)

Lemma lookup_map {A B} (f : A -> B) (l : list A) (i : nat) :
  map f l !! i = f <$> (l !! i).
Proof. exact (list_lookup_fmap f l i). Qed.

Lemma lookup_but_last {A} (l : list A) (i : nat) :
  (S i < length l)%nat -> but_last l !! i = l !! i.
Proof. intros Hi. unfold but_last. apply lookup_take_lt. lia. Qed.

Lemma entry_np_absolute (M : matrix) (i j : nat) :
  entry (np_absolute M) i j = Qabs (entry M i j).
Proof.
  unfold entry, np_absolute. rewrite lookup_map.
  destruct (M !! i) as [row|]; simpl; [|reflexivity].
  rewrite lookup_map. destruct (row !! j); reflexivity.
Qed.

Lemma entry_drop_last_row_col (M : matrix) (m i j : nat) :
  length M = S m -> Forall (fun row => length row = S m) M ->
  (i < m)%nat -> (j < m)%nat ->
  entry (drop_last_row_col M) i j = entry M i j.
Proof.
  intros Hlen Hrows Hi Hj. unfold entry, drop_last_row_col.
  rewrite lookup_but_last by (rewrite length_map; lia).
  rewrite lookup_map. destruct (M !! i) as [row|] eqn:Hrow; simpl; [|reflexivity].
  rewrite lookup_but_last; [reflexivity|].
  rewrite Forall_forall in Hrows.
  rewrite (Hrows row) by (apply list_elem_of_lookup; eauto). lia.
Qed.

Lemma lookup_drop_last_row_col (M : matrix) (m i j : nat) :
  length M = S m -> Forall (fun row => length row = S m) M ->
  (i < m)%nat -> (j < m)%nat ->
  exists row, drop_last_row_col M !! i = Some row /\
              row !! j = Some (entry (drop_last_row_col M) i j).
Proof.
  intros Hlen Hrows Hi Hj. unfold entry, drop_last_row_col.
  rewrite lookup_but_last by (rewrite length_map; lia).
  rewrite lookup_map.
  destruct (lookup_lt_is_Some_2 M i) as [row Hrow]; [lia|].
  rewrite Hrow. simpl. eexists. split; [reflexivity|].
  rewrite Forall_forall in Hrows.
  assert (Hl : length row = S m) by (apply Hrows, list_elem_of_lookup; eauto).
  rewrite lookup_but_last by lia.
  destruct (lookup_lt_is_Some_2 row j) as [x Hx]; [lia|]. now rewrite Hx.
Qed.

Lemma shape_fill_diagonal (M : matrix) (val : list Q) (m : nat) :
  length M = S m -> Forall (fun row => length row = S m) M ->
  length (fill_diagonal M val) = S m /\
  Forall (fun row => length row = S m) (fill_diagonal M val).
Proof.
  intros Hlen Hrows. unfold fill_diagonal. split; [now rewrite length_imap|].
  apply Forall_forall. intros row Hrow.
  apply elem_of_lookup_imap in Hrow as (i & row0 & -> & Hrow0).
  rewrite Forall_forall in Hrows.
  assert (length row0 = S m) by (apply Hrows, list_elem_of_lookup; eauto).
  destruct (val !! i); [rewrite length_insert|]; assumption.
Qed.

Lemma shape_np_absolute (M : matrix) (m : nat) :
  length M = S m -> Forall (fun row => length row = S m) M ->
  length (np_absolute M) = S m /\
  Forall (fun row => length row = S m) (np_absolute M).
Proof.
  intros Hlen Hrows. unfold np_absolute. split; [now rewrite length_map|].
  apply Forall_forall. intros row Hrow.
  apply list_elem_of_In, in_map_iff in Hrow as (row0 & <- & Hrow0).
  rewrite length_map. rewrite Forall_forall in Hrows.
  apply Hrows, list_elem_of_In, Hrow0.
Qed.

Lemma entry_fill_diagonal (M : matrix) (val : list Q) (m i j : nat) (v : Q) :
  length M = S m -> Forall (fun row => length row = S m) M ->
  (i <= m)%nat -> (j <= m)%nat -> val !! i = Some v ->
  entry (fill_diagonal M val) i j = if (i =? j)%nat then v else entry M i j.
Proof.
  intros Hlen Hrows Hi Hj Hv. unfold entry, fill_diagonal.
  rewrite list_lookup_imap.
  destruct (lookup_lt_is_Some_2 M i) as [row Hrow]; [lia|].
  rewrite Hrow, Hv. simpl.
  rewrite Forall_forall in Hrows.
  assert (Hl : length row = S m) by (apply Hrows, list_elem_of_lookup; eauto).
  destruct (Nat.eqb_spec i j) as [<-|Hne].
  - rewrite list_lookup_insert_eq by lia. reflexivity.
  - rewrite list_lookup_insert_ne by assumption. reflexivity.
Qed.

Lemma last_column_lookup (M : matrix) (m i : nat) :
  length M = S m -> Forall (fun row => length row = S m) M -> (i <= m)%nat ->
  last_column M !! i = Some (entry M i m).
Proof.
  intros Hlen Hrows Hi. unfold last_column, entry. rewrite lookup_map.
  destruct (lookup_lt_is_Some_2 M i) as [row Hrow]; [lia|].
  rewrite Hrow. simpl. f_equal.
  rewrite Forall_forall in Hrows.
  assert (Hl : length row = S m) by (apply Hrows, list_elem_of_lookup; eauto).
  rewrite last_lookup, Hl. reflexivity.
Qed.

(** Entry (i, j), i, j < m, of the matrix that is iterated. *)
Lemma objective_matrix_entry (corr : matrix) (alpha : Q) (m i j : nat) :
  length corr = S m -> Forall (fun row => length row = S m) corr ->
  (i < m)%nat -> (j < m)%nat ->
  let A := np_absolute corr in
  let filled := fill_diagonal A (map (fun c => (- c * alpha)%Q) (last_column A)) in
  entry (drop_last_row_col filled) i j =
    if (i =? j)%nat then (- Qabs (entry corr i m) * alpha)%Q else Qabs (entry corr i j).
Proof.
  intros Hlen Hrows Hi Hj A filled.
  destruct (shape_np_absolute corr m Hlen Hrows) as [HlenA HrowsA]. fold A in HlenA, HrowsA.
  destruct (shape_fill_diagonal A (map (fun c => (- c * alpha)%Q) (last_column A)) m
              HlenA HrowsA) as [HlenF HrowsF]. fold filled in HlenF, HrowsF.
  rewrite (entry_drop_last_row_col filled m i j HlenF HrowsF Hi Hj).
  unfold filled.
  rewrite (entry_fill_diagonal A _ m i j (- entry A i m * alpha)%Q HlenA HrowsA);
    [|lia|lia|].
  - unfold A. rewrite !entry_np_absolute. reflexivity.
  - rewrite lookup_map, (last_column_lookup A m i HlenA HrowsA) by lia. reflexivity.
Qed.

(** *** Accumulation of the objective *)

Lemma pair_key_eq (u v i j : nat) :
  pair_key u v = pair_key i j <-> (u = i /\ v = j) \/ (u = j /\ v = i).
Proof.
  unfold pair_key.
  destruct (Nat.ltb_spec u v), (Nat.ltb_spec i j); split;
    try (intros [= -> ->]); try (intros [[-> ->]|[-> ->]]);
    try lia; try reflexivity; try (f_equal; lia); auto.
Qed.

Lemma get_linear_add_quadratic (u v i : nat) (bias : Q) (qm : QuadraticModel) :
  get_linear (add_quadratic u v bias qm) i =
    if at_pair i i u v then (get_linear qm i + bias)%Q else get_linear qm i.
Proof.
  unfold add_quadratic, at_pair.
  destruct (Nat.eqb_spec u v) as [<-|Huv].
  - unfold add_linear, get_linear. cbn [linear].
    destruct (Nat.eqb_spec u i) as [->|Hui]; cbn [andb].
    + now rewrite lookup_insert_eq.
    + now rewrite lookup_insert_ne.
  - unfold get_linear. cbn [linear].
    destruct (Nat.eqb_spec u i) as [->|Hui]; cbn [andb]; [|reflexivity].
    destruct (Nat.eqb_spec v i) as [->|Hvi]; [congruence|reflexivity].
Qed.

Lemma get_quadratic_add_quadratic (u v i j : nat) (bias : Q) (qm : QuadraticModel) :
  i <> j ->
  get_quadratic (add_quadratic u v bias qm) i j =
    if at_pair i j u v || at_pair j i u v
    then (get_quadratic qm i j + bias)%Q else get_quadratic qm i j.
Proof.
  intros Hij. unfold add_quadratic, at_pair.
  destruct (Nat.eqb_spec u v) as [<-|Huv].
  - unfold add_linear, get_quadratic. cbn [quadratic].
    destruct (Nat.eqb_spec u i) as [Hui|Hui], (Nat.eqb_spec u j) as [Huj|Huj];
      cbn [andb orb]; congruence.
  - unfold get_quadratic. cbn [quadratic].
    destruct (decide (pair_key u v = pair_key i j)) as [Hk|Hk].
    + rewrite Hk, lookup_insert_eq.
      apply pair_key_eq in Hk as [[-> ->]|[-> ->]];
        rewrite !Nat.eqb_refl; cbn [andb orb]; [reflexivity|].
      now rewrite orb_true_r.
    + rewrite lookup_insert_ne by assumption.
      destruct (Nat.eqb_spec u i) as [Hui|Hui], (Nat.eqb_spec v j) as [Hvj|Hvj],
        (Nat.eqb_spec u j) as [Huj|Huj], (Nat.eqb_spec v i) as [Hvi|Hvi];
        cbn [andb orb]; try reflexivity; exfalso; apply Hk, pair_key_eq; auto.
Qed.

Lemma get_linear_fold (ts : list (nat * nat * Q)) (qm : QuadraticModel) (i : nat) :
  (get_linear (fold_left (fun qm t => add_quadratic t.1.1 t.1.2 t.2 qm) ts qm) i ==
   get_linear qm i + term_sum (at_pair i i) ts)%Q.
Proof.
  revert qm. induction ts as [|[[u v] b] ts IH]; intros qm; cbn [fold_left term_sum foldr].
  - ring.
  - rewrite IH. cbn [fst snd]. rewrite get_linear_add_quadratic.
    fold (term_sum (at_pair i i) ts).
    destruct (at_pair i i u v); ring.
Qed.

Lemma get_quadratic_fold (ts : list (nat * nat * Q)) (qm : QuadraticModel) (i j : nat) :
  i <> j ->
  (get_quadratic (fold_left (fun qm t => add_quadratic t.1.1 t.1.2 t.2 qm) ts qm) i j ==
   get_quadratic qm i j + term_sum (fun u v => at_pair i j u v || at_pair j i u v) ts)%Q.
Proof.
  intros Hij. revert qm.
  induction ts as [|[[u v] b] ts IH]; intros qm; cbn [fold_left term_sum foldr].
  - ring.
  - rewrite IH. cbn [fst snd]. rewrite get_quadratic_add_quadratic by assumption.
    fold (term_sum (fun u v => at_pair i j u v || at_pair j i u v) ts).
    destruct (at_pair i j u v || at_pair j i u v); ring.
Qed.

Lemma term_sum_cons (P : nat -> nat -> bool) (t : nat * nat * Q) (ts : list (nat * nat * Q)) :
  term_sum P (t :: ts) =
    if P t.1.1 t.1.2 then (t.2 + term_sum P ts)%Q else term_sum P ts.
Proof. reflexivity. Qed.

Lemma term_sum_app (P : nat -> nat -> bool) (l1 l2 : list (nat * nat * Q)) :
  (term_sum P (l1 ++ l2) == term_sum P l1 + term_sum P l2)%Q.
Proof.
  induction l1 as [|t l1 IH].
  - change (term_sum P []) with 0%Q. cbn [app]. ring.
  - cbn [app]. rewrite !term_sum_cons.
    destruct (P t.1.1 t.1.2); rewrite IH; ring.
Qed.

Lemma term_sum_or (P1 P2 : nat -> nat -> bool) (ts : list (nat * nat * Q)) :
  (forall u v, P1 u v && P2 u v = false) ->
  (term_sum (fun u v => P1 u v || P2 u v) ts == term_sum P1 ts + term_sum P2 ts)%Q.
Proof.
  intros Hdis. induction ts as [|t ts IH].
  - change (0 == 0 + 0)%Q. ring.
  - rewrite !term_sum_cons. specialize (Hdis t.1.1 t.1.2).
    destruct (P1 t.1.1 t.1.2), (P2 t.1.1 t.1.2); cbn [orb andb] in *;
      try discriminate; rewrite IH; ring.
Qed.

(** The triples read off one row, and off the whole array. *)
Lemma term_sum_row (a b i : nat) (row : list Q) (o : nat) :
  (term_sum (at_pair a b) (imap (fun j x => (i, (o + j)%nat, x)) row) ==
   if (i =? a)%nat && (o <=? b)%nat then default 0 (row !! (b - o)%nat) else 0)%Q.
Proof.
  revert o. induction row as [|x row IH]; intros o.
  - cbn [imap]. change (term_sum (at_pair a b) []) with 0%Q.
    rewrite lookup_nil. destruct ((i =? a)%nat && (o <=? b)%nat); reflexivity.
  - rewrite imap_cons, term_sum_cons.
    rewrite (imap_ext _ (fun j x => (i, (S o + j)%nat, x)))
      by (intros j y _; cbn; do 2 f_equal; lia).
    specialize (IH (S o)). cbn [fst snd].
    change (at_pair a b i (o + 0)) with ((i =? a)%nat && (o + 0 =? b)%nat).
    destruct (Nat.eqb_spec i a) as [_|_]; cbn [andb] in *;
      [|destruct (o + 0 =? b)%nat; rewrite IH; ring].
    destruct (Nat.eqb_spec (o + 0) b) as [Hob|Hob]; rewrite IH.
    + destruct (Nat.leb_spec (S o) b); [lia|].
      destruct (Nat.leb_spec o b); [|lia].
      replace (b - o)%nat with 0%nat by lia. cbn. ring.
    + destruct (Nat.leb_spec (S o) b), (Nat.leb_spec o b); try lia; [|reflexivity].
      replace (b - o)%nat with (S (b - S o)) by lia. reflexivity.
Qed.

Lemma term_sum_rows (a b : nat) (M : matrix) (o : nat) :
  (term_sum (at_pair a b)
     (concat (imap (fun i row => imap (fun j x => ((o + i)%nat, j, x)) row) M)) ==
   if (o <=? a)%nat then entry M (a - o) b else 0)%Q.
Proof.
  revert o. induction M as [|row M IH]; intros o.
  - cbn [imap concat]. change (term_sum (at_pair a b) []) with 0%Q.
    unfold entry. rewrite lookup_nil. destruct (o <=? a)%nat; reflexivity.
  - rewrite imap_cons. cbn [concat]. rewrite term_sum_app.
    rewrite (imap_ext _ (fun i row => imap (fun j x => ((S o + i)%nat, j, x)) row))
      by (intros i r _; cbn; apply imap_ext; intros j x _; do 2 f_equal; lia).
    rewrite IH.
    rewrite (term_sum_row a b (o + 0) row 0). rewrite Nat.sub_0_r.
    change (0 <=? b)%nat with true. rewrite andb_true_r. unfold entry.
    destruct (Nat.eqb_spec (o + 0) a) as [Hoa|Hoa].
    + destruct (Nat.leb_spec (S o) a); [lia|].
      destruct (Nat.leb_spec o a); [|lia].
      replace (a - o)%nat with 0%nat by lia. cbn. ring.
    + destruct (Nat.leb_spec (S o) a), (Nat.leb_spec o a); try lia; [|ring].
      replace (a - o)%nat with (S (a - S o)) by lia.
      change ((row :: M) !! S (a - S o)%nat) with (M !! (a - S o)%nat). ring.
Qed.

Lemma term_sum_nditer (a b : nat) (M : matrix) :
  (term_sum (at_pair a b) (nditer_multi_index M) == entry M a b)%Q.
Proof.
  pose proof (term_sum_rows a b M 0) as H. rewrite Nat.sub_0_r in H. exact H.
Qed.

Lemma elem_of_nditer (M : matrix) (i j : nat) (row : list Q) (x : Q) :
  M !! i = Some row -> row !! j = Some x -> (i, j, x) ∈ nditer_multi_index M.
Proof.
  intros Hrow Hx. unfold nditer_multi_index.
  apply list_elem_of_In, in_concat.
  exists (imap (fun j x => (i, j, x)) row). split; apply list_elem_of_In.
  - apply (elem_of_lookup_imap_2 (fun i row => imap (fun j x => (i, j, x)) row) M row i Hrow).
  - apply (elem_of_lookup_imap_2 (fun j x => (i, j, x)) row x j Hx).
Qed.

(** *** Setting the objective *)

Lemma assemble_objective_returns (corr : matrix) (alpha : Q) (cqm cqm' : CQM) :
  assemble_objective corr alpha cqm = inr cqm' ->
  cqm' = set_objective (objective_terms corr alpha) cqm /\
  array_size (objective_matrix corr alpha) <> 0%nat.
Proof.
  unfold assemble_objective, np_nditer, objective_terms.
  destruct (Nat.eqb_spec (array_size (objective_matrix corr alpha)) 0); [discriminate|].
  intros [= <-]. split; [reflexivity|assumption].
Qed.

Lemma assemble_objective_raises (corr : matrix) (alpha : Q) (cqm : CQM) (e : exn) :
  assemble_objective corr alpha cqm = inl e ->
  e = ValueError msg_zero_size_iteration /\
  array_size (objective_matrix corr alpha) = 0%nat.
Proof.
  unfold assemble_objective, np_nditer.
  destruct (Nat.eqb_spec (array_size (objective_matrix corr alpha)) 0); [|discriminate].
  intros [= <-]. split; [reflexivity|assumption].
Qed.

(** *** Mask extraction *)

Lemma fromiter_bool_raises (lowest : gmap nat Z) (vars : list nat) e :
  fromiter_bool lowest vars = inl e -> exists v, e = KeyError v.
Proof.
  induction vars as [|v vars IH]; simpl; [discriminate|].
  destruct (lowest !! v); [|intros [= <-]; eauto].
  destruct (fromiter_bool lowest vars); [|discriminate].
  intros [= <-]. now apply IH.
Qed.

Lemma fromiter_bool_total (lowest : gmap nat Z) (vars : list nat) :
  (forall v, v ∈ vars -> is_Some (lowest !! v)) ->
  fromiter_bool lowest vars =
    inr (map (fun v => negb (default 0 (lowest !! v) =? 0)) vars).
Proof.
  induction vars as [|v vars IH]; intros Hall; simpl; [reflexivity|].
  destruct (Hall v) as [x Hx]; [left|]. rewrite Hx.
  rewrite IH by (intros v' Hv'; apply Hall; now right). reflexivity.
Qed.

(** The mask of a 0/1 assignment has as many true entries as the
    assignment has ones. *)
Lemma sum_mask_binary (s : gmap nat Z) (vars : list nat) :
  forallb (binary_value s) vars = true ->
  sum_mask (map (fun v => negb (default 0 (s !! v) =? 0)) vars) =
    lhs_value (map (fun v => (v, 1)) vars) s.
Proof.
  induction vars as [|v vars IH]; simpl; [reflexivity|].
  intros [Hv Hvars]%andb_prop. rewrite (IH Hvars). f_equal.
  unfold binary_value in Hv. destruct (s !! v) as [x|]; [|discriminate]. simpl.
  apply orb_prop in Hv as [Hx|Hx]; apply Z.eqb_eq in Hx; subst x; reflexivity.
Qed.

(** *** Selection of the best sample *)

Lemma elem_of_insert_by_energy (d d' : Sample) (l : SampleSet) :
  d' ∈ insert_by_energy d l <-> d' = d \/ d' ∈ l.
Proof.
  induction l as [|h l IH]; simpl.
  - rewrite list_elem_of_singleton. rewrite elem_of_nil. tauto.
  - destruct (Qle_bool (energy d) (energy h)).
    + rewrite elem_of_cons. tauto.
    + rewrite !elem_of_cons, IH. tauto.
Qed.

Lemma elem_of_sort_by_energy (d : Sample) (ss : SampleSet) :
  d ∈ sort_by_energy ss <-> d ∈ ss.
Proof.
  induction ss as [|h ss IH]; simpl; [reflexivity|].
  rewrite elem_of_insert_by_energy, elem_of_cons, IH. tauto.
Qed.

(** The head of the sorted sample set has the least energy. *)
Lemma sort_by_energy_head (ss : SampleSet) (d : Sample) (rest : SampleSet) :
  sort_by_energy ss = d :: rest ->
  forall d', d' ∈ ss -> (energy d <= energy d')%Q.
Proof.
  revert d rest. induction ss as [|h ss IH]; intros d rest Hs d' Hd'.
  - now apply elem_of_nil in Hd'.
  - simpl in Hs. destruct (sort_by_energy ss) as [|m tail] eqn:Hsort.
    + simpl in Hs. injection Hs as <- <-.
      apply elem_of_cons in Hd' as [->|Hd']; [apply Qle_refl|].
      apply elem_of_sort_by_energy in Hd'. rewrite Hsort in Hd'.
      now apply elem_of_nil in Hd'.
    + simpl in Hs. destruct (Qle_bool (energy h) (energy m)) eqn:Hle.
      * injection Hs as <- <-. apply Qle_bool_iff in Hle.
        apply elem_of_cons in Hd' as [->|Hd']; [apply Qle_refl|].
        eapply Qle_trans; [exact Hle|]. eapply IH; [reflexivity|exact Hd'].
      * injection Hs as <- <-.
        apply elem_of_cons in Hd' as [->|Hd'].
        -- apply Qlt_le_weak, Qnot_le_lt. intros Hc.
           apply Qle_bool_iff in Hc. congruence.
        -- eapply IH; [reflexivity|exact Hd'].
Qed.

Lemma first_lowest (ss : SampleSet) :
  ss <> [] ->
  exists d, first ss = inr d /\ d ∈ ss /\
            forall d', d' ∈ ss -> (energy d <= energy d')%Q.
Proof.
  intros Hne. unfold first. destruct (sort_by_energy ss) as [|d rest] eqn:Hs.
  - exfalso. destruct ss as [|h ss]; [congruence|].
    assert (Hh : h ∈ sort_by_energy (h :: ss)) by (apply elem_of_sort_by_energy; left).
    rewrite Hs in Hh. now apply elem_of_nil in Hh.
  - exists d. split; [reflexivity|]. split.
    + apply elem_of_sort_by_energy. rewrite Hs. left.
    + apply (sort_by_energy_head ss d rest Hs).
Qed.

(** The triples of an (m+1) x (m+1) correlation matrix, and the coefficients
    they add up to. *)
Lemma objective_terms_coefficients (corr : matrix) (alpha : Q) (m : nat) :
  length corr = S m ->
  Forall (fun row => length row = S m) corr ->
  let terms := objective_terms corr alpha in
  let obj := objective_of_terms terms in
  (forall i, (i < m)%nat ->
     (i, i, (- Qabs (entry corr i m) * alpha)%Q) ∈ terms /\
     (get_linear obj i == - alpha * Qabs (entry corr i m))%Q) /\
  (forall i j, (i < m)%nat -> (j < m)%nat -> i <> j ->
     (i, j, Qabs (entry corr i j)) ∈ terms /\
     (j, i, Qabs (entry corr j i)) ∈ terms /\
     (get_quadratic obj i j == Qabs (entry corr i j) + Qabs (entry corr j i))%Q).
Proof.
  intros Hlen Hrows terms obj.
  set (A := np_absolute corr).
  set (filled := fill_diagonal A (map (fun c => (- c * alpha)%Q) (last_column A))).
  assert (Hterms : terms = nditer_multi_index (drop_last_row_col filled)) by reflexivity.
  destruct (shape_np_absolute corr m Hlen Hrows) as [HlenA HrowsA]. fold A in HlenA, HrowsA.
  destruct (shape_fill_diagonal A (map (fun c => (- c * alpha)%Q) (last_column A)) m
              HlenA HrowsA) as [HlenF HrowsF]. fold filled in HlenF, HrowsF.
  assert (Hentry : forall i j, (i < m)%nat -> (j < m)%nat ->
            entry (drop_last_row_col filled) i j =
              if (i =? j)%nat then (- Qabs (entry corr i m) * alpha)%Q
              else Qabs (entry corr i j)).
  { intros i j Hi Hj. apply (objective_matrix_entry corr alpha m i j Hlen Hrows Hi Hj). }
  assert (Hin : forall i j, (i < m)%nat -> (j < m)%nat ->
            (i, j, entry (drop_last_row_col filled) i j) ∈ terms).
  { intros i j Hi Hj. rewrite Hterms.
    destruct (lookup_drop_last_row_col filled m i j HlenF HrowsF Hi Hj) as [row [Hrow Hx]].
    eapply elem_of_nditer; eassumption. }
  split.
  - intros i Hi. split.
    + specialize (Hin i i Hi Hi). rewrite (Hentry i i Hi Hi), Nat.eqb_refl in Hin.
      exact Hin.
    + unfold obj, objective_of_terms. rewrite get_linear_fold, Hterms, term_sum_nditer.
      rewrite (Hentry i i Hi Hi), Nat.eqb_refl.
      unfold get_linear, empty_qm. cbn [linear]. rewrite lookup_empty. cbn [default].
      ring.
  - intros i j Hi Hj Hij.
    assert (Hneq : (i =? j)%nat = false) by (apply Nat.eqb_neq; exact Hij).
    assert (Hneq' : (j =? i)%nat = false) by (apply Nat.eqb_neq; congruence).
    split; [|split].
    + specialize (Hin i j Hi Hj). rewrite (Hentry i j Hi Hj), Hneq in Hin. exact Hin.
    + specialize (Hin j i Hj Hi). rewrite (Hentry j i Hj Hi), Hneq' in Hin. exact Hin.
    + unfold obj, objective_of_terms. rewrite get_quadratic_fold by assumption.
      rewrite term_sum_or.
      * rewrite Hterms, !term_sum_nditer.
        rewrite (Hentry i j Hi Hj), (Hentry j i Hj Hi), Hneq, Hneq'.
        unfold get_quadratic, empty_qm. cbn [quadratic]. rewrite lookup_empty.
        cbn [default]. ring.
      * intros u v. unfold at_pair.
        destruct (Nat.eqb_spec u i), (Nat.eqb_spec v j), (Nat.eqb_spec u j),
          (Nat.eqb_spec v i); cbn [andb]; try reflexivity; congruence.
Qed.

Section Properties.

Variable corrcoef : matrix -> nat -> nat -> Q.
Variable LeapHybridCQMSampler : sampler_outcome.
Variable sample_cqm : CQM -> option Q -> solver_response.

Local Abbreviation run_fit := (fit corrcoef LeapHybridCQMSampler sample_cqm).
Local Abbreviation build_cqm := (correlation_cqm corrcoef).

(** Every error raised by [correlation_cqm] is a [ValueError]. *)
Lemma correlation_cqm_raises_ValueError X y alpha k strict e :
  build_cqm X y alpha k strict = inl e -> exists m, e = ValueError m.
Proof.
  unfold correlation_cqm, augment, assemble_objective, np_nditer.
  repeat case_match; intros ?; simplify_eq/=; eauto.
Qed.

(** What a returned model looks like. *)
Lemma correlation_cqm_returns X y alpha K strict cqm :
  build_cqm X y alpha K strict = inr cqm ->
  0 < K /\ variables cqm = seq 0 (n_columns X) /\
  constraints cqm = [k_hot (n_columns X) strict K].
Proof.
  unfold correlation_cqm.
  destruct (negb (ndim (atleast_2d X) =? 2)%nat); [discriminate|].
  destruct (negb (ndim y =? 1)%nat); [discriminate|].
  destruct (negb (in_unit_interval alpha)); [discriminate|].
  destruct (Z.leb_spec K 0) as [|HK]; [discriminate|].
  destruct (augment (atleast_2d X) y) as [e|X_copy]; [discriminate|].
  intros [-> _]%assemble_objective_returns. split; [exact HK|].
  cbn. fold (n_columns X). rewrite !filter_not_in_nil. split; reflexivity.
Qed.

(** The objective of a returned model is the one assembled from the table
    [corrcoef] wrote for the augmented matrix. *)
Lemma correlation_cqm_objective X y alpha K strict cqm :
  build_cqm X y alpha K strict = inr cqm ->
  exists X_copy,
    augment (atleast_2d X) y = inr X_copy /\
    let side := S (n_columns X) in
    objective cqm =
      objective_of_terms
        (objective_terms
           (map (fun i => map (fun j => corrcoef X_copy i j) (seq 0 side)) (seq 0 side))
           alpha).
Proof.
  unfold correlation_cqm.
  destruct (negb (ndim (atleast_2d X) =? 2)%nat); [discriminate|].
  destruct (negb (ndim y =? 1)%nat); [discriminate|].
  destruct (negb (in_unit_interval alpha)); [discriminate|].
  destruct (K <=? 0); [discriminate|].
  destruct (augment (atleast_2d X) y) as [e|X_copy]; [discriminate|].
  intros [-> _]%assemble_objective_returns. exists X_copy. split; reflexivity.
Qed.

(** The only mask [fit] writes is the one it ends with: a raise leaves the
    instance as it was. *)
Lemma fit_raise_keeps_instance X y alpha k tl w e w' :
  run_fit X y alpha k tl w = (inl e, w') -> this w' = this w.
Proof.
  unfold fit, new_sampler, call_sample_cqm, log_event, lift, raise,
    set_mask, get_self, mbind, mret, M_bind, M_ret.
  repeat (case_match; simplify_eq/=); intros; simplify_eq/=; reflexivity.
Qed.

(** The path of [fit] through the solver, once the model is built and the
    client is constructed. *)
Lemma fit_solver_path X y alpha k tl w cqm :
  resolve k (_num_features (this w)) < Z.of_nat (n_columns X) ->
  _method (this w) = "correlation"%string ->
  build_cqm (atleast_2d X) y (resolve alpha (_alpha (this w)))
    (resolve k (_num_features (this w))) true = inr cqm ->
  LeapHybridCQMSampler = SamplerReady ->
  run_fit X y alpha k tl w =
    let w1 := {| this := this w;
                 solver_log := solver_log w ++
                   [SamplerCreated; SampleCqm cqm (_time_limit (this w))] |} in
    match sample_cqm cqm (_time_limit (this w)) with
    | Raised c => (inl (client_exception c), w1)
    | Returned ss =>
        if (length (filter_feasible ss) =? 0)%nat
        then (inl (RuntimeError msg_no_feasible), w1)
        else match first (filter_feasible ss) with
             | inl e => (inl e, w1)
             | inr d =>
                 match fromiter_bool (sample d) (variables cqm) with
                 | inl e => (inl e, w1)
                 | inr mask =>
                     (inr tt, {| this := with_mask (Some mask) (this w);
                                 solver_log := solver_log w1 |})
                 end
             end
    end.
Proof.
  intros Hk Hm Hcqm Hs.
  assert (Hnd : negb (ndim (atleast_2d X) =? 2)%nat = false).
  { revert Hcqm. unfold correlation_cqm. rewrite atleast_2d_idemp.
    destruct (negb (ndim (atleast_2d X) =? 2)%nat); [discriminate | reflexivity]. }
  unfold fit, new_sampler, call_sample_cqm, log_event, lift, raise,
    set_mask, get_self, mbind, mret, M_bind, M_ret, n_columns, resolve in *.
  rewrite Hnd. cbn beta iota.
  destruct (Z.leb_spec (Z.of_nat (shape_at (atleast_2d X) 1))
              (match k with Some a => a | None => _num_features (this w) end)) as [Hle|_];
    [lia|].
  rewrite Hm. cbn [String.eqb Ascii.eqb Bool.eqb]. rewrite Hcqm, Hs. cbn.
  rewrite <- !app_assoc. cbn [app].
  destruct (sample_cqm cqm (_time_limit (this w))) as [ss|tag]; [|reflexivity].
  destruct (length (filter_feasible ss) =? 0)%nat; [reflexivity|].
  destruct (first (filter_feasible ss)) as [e|d]; [reflexivity|].
  destruct (fromiter_bool (sample d) (variables cqm)); reflexivity.
Qed.

(** Whatever [time_limit] is passed to [fit], the solver is called with the
    constructor's value. *)
Lemma fit_dispatches_constructor_time_limit X y alpha k tl w cqm :
  resolve k (_num_features (this w)) < Z.of_nat (n_columns X) ->
  _method (this w) = "correlation"%string ->
  build_cqm (atleast_2d X) y (resolve alpha (_alpha (this w)))
    (resolve k (_num_features (this w))) true = inr cqm ->
  LeapHybridCQMSampler = SamplerReady ->
  dispatched_time_limits (solver_log (run_fit X y alpha k tl w).2) =
    dispatched_time_limits (solver_log w) ++ [_time_limit (this w)].
Proof.
  intros Hk Hm Hcqm Hs. rewrite (fit_solver_path X y alpha k tl w cqm Hk Hm Hcqm Hs).
  assert (Hlog : dispatched_time_limits
            (solver_log w ++ [SamplerCreated; SampleCqm cqm (_time_limit (this w))]) =
          dispatched_time_limits (solver_log w) ++ [_time_limit (this w)]).
  { unfold dispatched_time_limits. rewrite omap_app. reflexivity. }
  cbn zeta. repeat case_match; cbn; exact Hlog.
Qed.

(** C3: for a 2-dimensional X and a resolved [num_features] that is at least
    the number of columns, [fit] stores the all-true mask of that length,
    leaves the instance fitted, and the solver sees nothing (no client is
    constructed, no model is dispatched). *)
Theorem fit_short_circuit_all_true X y alpha k tl w :
  ndim X = 2%nat ->
  Z.of_nat (shape_at X 1) <= resolve k (_num_features (this w)) ->
  exists w',
    run_fit X y alpha k tl w = (inr tt, w') /\
    _mask (this w') = Some (replicate (shape_at X 1) true) /\
    length (replicate (shape_at X 1) true) = shape_at X 1 /\
    sklearn_is_fitted (this w') = true /\
    solver_log w' = solver_log w.
Proof.
  intros Hnd Hk. eexists. split; [|split; [|split; [|split]]].
  - unfold fit, set_mask, get_self, raise, mbind, M_bind, resolve in *.
    rewrite (atleast_2d_ndim_2 X Hnd), Hnd. cbn.
    apply Z.leb_le in Hk. rewrite Hk. reflexivity.
  - reflexivity.
  - apply length_replicate.
  - reflexivity.
  - reflexivity.
Qed.

(** C5: a call of [fit] that raises (a validation error, a solver that
    cannot be reached or authenticated, no feasible sample, or anything
    else) does not write the mask: an unfitted instance stays unfitted and a
    fitted one keeps the mask it had. *)
Theorem fit_failure_keeps_mask X y alpha k tl w e w' :
  run_fit X y alpha k tl w = (inl e, w') ->
  _mask (this w') = _mask (this w) /\
  sklearn_is_fitted (this w') = sklearn_is_fitted (this w).
Proof.
  intros Hfit. apply fit_raise_keeps_instance in Hfit. rewrite Hfit. split; reflexivity.
Qed.

(** C6: when the solver returns a sample set without a feasible sample,
    [fit] raises the "no feasible solutions" RuntimeError, and an instance
    that was unfitted is still unfitted. *)
Theorem fit_no_feasible_sample X y alpha k tl w cqm ss :
  resolve k (_num_features (this w)) < Z.of_nat (n_columns X) ->
  _method (this w) = "correlation"%string ->
  build_cqm (atleast_2d X) y (resolve alpha (_alpha (this w)))
    (resolve k (_num_features (this w))) true = inr cqm ->
  LeapHybridCQMSampler = SamplerReady ->
  sample_cqm cqm (_time_limit (this w)) = Returned ss ->
  (forall d, d ∈ ss -> is_feasible d = false) ->
  exists w',
    run_fit X y alpha k tl w = (inl (RuntimeError msg_no_feasible), w') /\
    _mask (this w') = _mask (this w) /\
    (_mask (this w) = None -> sklearn_is_fitted (this w') = false).
Proof.
  intros Hk Hm Hcqm Hs Hss Hnone.
  rewrite (fit_solver_path X y alpha k tl w cqm Hk Hm Hcqm Hs), Hss. cbn zeta.
  assert (Hf : filter_feasible ss = []).
  { destruct (filter_feasible ss) as [|d l] eqn:Hfl; [reflexivity|].
    assert (Hd : d ∈ filter_feasible ss) by (rewrite Hfl; left).
    apply list_elem_of_filter in Hd as [Hfe Hd].
    rewrite (Hnone d Hd) in Hfe. discriminate. }
  rewrite Hf. cbn. eexists. split; [reflexivity|]. cbn. split; [reflexivity|].
  intros Hmask. unfold sklearn_is_fitted. now rewrite Hmask.
Qed.

(** C4, as the code has it: the constructor rejects every alpha outside
    [0,1], every method that is not accepted and every num_features <= 0
    with a ValueError (so no instance and no mask exist); [fit], which takes
    no method, rejects a resolved alpha outside [0,1] and a resolved
    num_features <= 0 with a ValueError whenever the resolved num_features is
    smaller than the number of columns, leaving the instance and the solver
    untouched. *)
Theorem invalid_hyperparameters_rejected :
  (forall alpha method k tl,
     in_unit_interval alpha = false \/ method ∉ ACCEPTED_METHODS \/ k <= 0 ->
     exists m, init alpha method k tl = inl (ValueError m)) /\
  (forall X y alpha k tl w,
     _method (this w) = "correlation"%string ->
     resolve k (_num_features (this w)) < Z.of_nat (n_columns X) ->
     in_unit_interval (resolve alpha (_alpha (this w))) = false \/
       resolve k (_num_features (this w)) <= 0 ->
     exists m, run_fit X y alpha k tl w = (inl (ValueError m), w)).
Proof.
  split; [exact init_rejects|].
  intros X y alpha k tl w Hm Hk Hbad.
  unfold fit, lift, raise, get_self, mbind, M_bind, n_columns, resolve in *.
  destruct (negb (ndim (atleast_2d X) =? 2)%nat) eqn:Hnd; [eauto|]. cbn beta iota.
  destruct (Z.leb_spec (Z.of_nat (shape_at (atleast_2d X) 1))
              (match k with Some a => a | None => _num_features (this w) end)) as [Hle|_];
    [lia|].
  rewrite Hm. cbn [String.eqb Ascii.eqb Bool.eqb].
  unfold correlation_cqm. rewrite atleast_2d_idemp, Hnd.
  destruct (negb (ndim y =? 1)%nat); [eauto|].
  destruct (in_unit_interval _) eqn:Ha; cbn [negb]; [|eauto].
  destruct (Z.leb_spec (match k with Some a => a | None => _num_features (this w) end) 0)
    as [Hk0|Hk0]; [eauto|].
  exfalso. destruct Hbad as [Hbad|Hbad]; [discriminate|lia].
Qed.

(** C10: [fit] promotes X with [np.atleast_2d] before it checks the number
    of dimensions: a 1-dimensional X of length n becomes a 1 x n matrix, and
    the call ends in the "X must be 2-dimensional" error exactly when X has
    more than two dimensions; on the short-circuit path (X of at most two
    dimensions, resolved num_features at least the number of columns of the
    promoted X) it succeeds with the all-true mask for every y and every
    alpha. *)
Theorem fit_promotes_X_and_skips_validation X y alpha k tl w :
  (ndim X = 1%nat -> shape (atleast_2d X) = [1%nat; shape_at X 0]) /\
  ((run_fit X y alpha k tl w).1 = inl (ValueError msg_X_ndim) <-> (2 < ndim X)%nat) /\
  ((ndim X <= 2)%nat ->
   Z.of_nat (n_columns X) <= resolve k (_num_features (this w)) ->
   run_fit X y alpha k tl w =
     (inr tt, {| this := with_mask (Some (replicate (n_columns X) true)) (this w);
                 solver_log := solver_log w |})).
Proof.
  split; [|split].
  - unfold ndim, atleast_2d, shape_at.
    destruct X as [[|n [|n' sh]] d]; simpl; intros; (discriminate || reflexivity).
  - rewrite <- atleast_2d_ndim_check.
    unfold fit, new_sampler, call_sample_cqm, log_event, lift, raise,
      set_mask, get_self, mbind, mret, M_bind, M_ret, correlation_cqm, augment,
      assemble_objective, np_nditer, first.
    rewrite atleast_2d_idemp.
    destruct (negb (ndim (atleast_2d X) =? 2)%nat) eqn:Hnd; [tauto|].
    cbn beta iota. split; [|discriminate].
    repeat (case_match; simplify_eq/=); intros; simplify_eq/=;
      match goal with
      | H : fromiter_bool _ _ = inl _ |- _ =>
          apply fromiter_bool_raises in H as [? ?]; discriminate
      | H : client_exception ?c = _ |- _ => destruct c; discriminate
      | H : _ = client_exception ?c |- _ => destruct c; discriminate
      end.
  - intros HX Hk.
    unfold fit, set_mask, get_self, raise, mbind, M_bind, n_columns, resolve in *.
    rewrite (atleast_2d_ndim_le2 X HX). cbn.
    apply Z.leb_le in Hk. rewrite Hk. reflexivity.
Qed.

(** C7: when the sample set has a feasible sample, [fit] takes a feasible
    sample of least energy and stores the mask read off that sample along
    the model's variables 0..m-1: the mask has one entry per feature column,
    in column order.  The model is built with the strict constraint, so when
    the solver's feasibility flag is truthful the mask has exactly the
    resolved [num_features] true entries. *)
Theorem fit_selects_lowest_feasible X y alpha k tl w cqm ss :
  resolve k (_num_features (this w)) < Z.of_nat (n_columns X) ->
  _method (this w) = "correlation"%string ->
  build_cqm (atleast_2d X) y (resolve alpha (_alpha (this w)))
    (resolve k (_num_features (this w))) true = inr cqm ->
  LeapHybridCQMSampler = SamplerReady ->
  sample_cqm cqm (_time_limit (this w)) = Returned ss ->
  (exists d, d ∈ ss /\ is_feasible d = true) ->
  (forall d v, d ∈ ss -> v ∈ variables cqm -> is_Some (sample d !! v)) ->
  exists d mask w',
    d ∈ ss /\ is_feasible d = true /\
    (forall d', d' ∈ ss -> is_feasible d' = true -> (energy d <= energy d')%Q) /\
    run_fit X y alpha k tl w = (inr tt, w') /\
    _mask (this w') = Some mask /\
    mask = map (fun v => negb (default 0 (sample d !! v) =? 0)) (seq 0 (n_columns X)) /\
    length mask = n_columns X /\
    (satisfies cqm (sample d) = true ->
     sum_mask mask = resolve k (_num_features (this w))).
Proof.
  intros Hk Hm Hcqm Hs Hss [d0 [Hd0 Hf0]] Htotal.
  destruct (correlation_cqm_returns _ _ _ _ _ _ Hcqm) as [HK [Hvars Hcons]].
  unfold n_columns in Hvars, Hcons.
  rewrite atleast_2d_idemp in Hvars, Hcons. fold (n_columns X) in Hvars, Hcons.
  assert (Hne : filter_feasible ss <> []).
  { intros Hnil. assert (Hin : d0 ∈ filter_feasible ss)
      by (apply list_elem_of_filter; split; assumption).
    rewrite Hnil in Hin. now apply elem_of_nil in Hin. }
  destruct (first_lowest _ Hne) as [d [Hfirst [Hd Hmin]]].
  apply list_elem_of_filter in Hd as [Hfd Hd].
  exists d. eexists. eexists.
  split; [exact Hd|]. split; [exact Hfd|]. split.
  { intros d' Hd' Hf'. apply Hmin. apply list_elem_of_filter. split; assumption. }
  rewrite (fit_solver_path X y alpha k tl w cqm Hk Hm Hcqm Hs), Hss. cbn zeta.
  destruct (filter_feasible ss) as [|f fs] eqn:Hflt; [congruence|].
  cbn [length Nat.eqb]. rewrite Hfirst.
  rewrite fromiter_bool_total by (intros v Hv; apply Htotal; assumption).
  rewrite Hvars.
  split; [reflexivity|]. cbn [this with_mask _mask].
  split; [reflexivity|]. split; [reflexivity|]. split.
  - now rewrite length_map, length_seq.
  - unfold satisfies. rewrite Hvars, Hcons. intros [Hbin Hc]%andb_prop.
    rewrite (sum_mask_binary _ _ Hbin).
    cbn in Hc. rewrite andb_true_r in Hc. now apply Z.eqb_eq in Hc.
Qed.

End Properties.

(** ** The model at work on the small data set *)

(** Closed comparisons and equations are settled by evaluation. *)
Ltac by_evaluation := vm_compute; first [reflexivity | discriminate | lia].
Ltac by_evaluation_some := eexists; vm_compute; reflexivity.

(** C2: [fit] is called with [time_limit=10] on an instance constructed
    with [time_limit=5]; the solver is called once, with 5. *)
Theorem fit_time_limit_argument_not_dispatched :
  dispatched_time_limits
    (solver_log
       (fit Demo.corrcoef SamplerReady Demo.solver Demo.X Demo.y None None (Some 10%Q)
          (fresh (Demo.selector 1 (Some 5%Q)))).2) = [Some 5%Q] /\
  dispatched_time_limits
    (solver_log
       (fit Demo.corrcoef SamplerReady Demo.solver Demo.X Demo.y None None (Some 10%Q)
          (fresh (Demo.selector 1 None))).2) = [None].
Proof. split; vm_compute; reflexivity. Qed.

Lemma fit_short_circuit_all_true_witness :
  ndim Demo.X = 2%nat /\
  Z.of_nat (shape_at Demo.X 1) <= 3 /\
  exists w',
    fit Demo.corrcoef SamplerReady Demo.solver Demo.X Demo.y None (Some 3) None
      (fresh (Demo.selector 1 None)) = (inr tt, w') /\
    _mask (this w') = Some [true; true; true] /\
    length (replicate (shape_at Demo.X 1) true) = 3%nat /\
    sklearn_is_fitted (this w') = true /\
    solver_log w' = [].
Proof.
  assert (Hnd : ndim Demo.X = 2%nat) by reflexivity.
  assert (Hk : Z.of_nat (shape_at Demo.X 1) <= 3) by by_evaluation.
  split; [exact Hnd|]. split; [exact Hk|].
  exact (fit_short_circuit_all_true Demo.corrcoef SamplerReady Demo.solver
           Demo.X Demo.y None (Some 3) None (fresh (Demo.selector 1 None)) Hnd Hk).
Defined.

(** C4 as stated fails: with alpha = 2 and as many features requested as
    there are columns [fit] succeeds and stores a mask; so it does with
    num_features = 0 on a matrix without columns. *)
Lemma fit_accepts_invalid_hyperparameters :
  in_unit_interval 2 = false /\
  fit Demo.corrcoef SamplerReady Demo.solver Demo.X Demo.y (Some 2%Q) (Some 3) None
    (fresh (Demo.selector 1 None)) =
    (inr tt, fresh (with_mask (Some [true; true; true]) (Demo.selector 1 None))) /\
  fit Demo.corrcoef SamplerReady Demo.solver Demo.X_no_columns Demo.y None (Some 0) None
    (fresh (Demo.selector 1 None)) =
    (inr tt, fresh (with_mask (Some []) (Demo.selector 1 None))).
Proof. repeat split. Qed.

Lemma invalid_hyperparameters_rejected_witness :
  (exists m, init 2 "correlation" 10 None = inl (ValueError m)) /\
  (exists m, init (1 # 2) "mutual information" 10 None = inl (ValueError m)) /\
  (exists m, init (1 # 2) "correlation" 0 None = inl (ValueError m)) /\
  (exists m, fit Demo.corrcoef SamplerReady Demo.solver Demo.X Demo.y (Some 2%Q) (Some 1) None
               (fresh Demo.fitted_selector) = (inl (ValueError m), fresh Demo.fitted_selector)) /\
  (exists m, fit Demo.corrcoef SamplerReady Demo.solver Demo.X Demo.y None (Some (-1)) None
               (fresh Demo.fitted_selector) = (inl (ValueError m), fresh Demo.fitted_selector)).
Proof.
  destruct (invalid_hyperparameters_rejected Demo.corrcoef SamplerReady Demo.solver)
    as [Hinit Hfit].
  split; [|split; [|split; [|split]]].
  - apply Hinit. left. reflexivity.
  - apply Hinit. right. left. intros Hin. apply list_elem_of_In in Hin.
    simpl in Hin. destruct Hin as [Hin|[]]. discriminate.
  - apply Hinit. right. right. lia.
  - apply Hfit; [reflexivity|by_evaluation|]. left. reflexivity.
  - apply Hfit; [reflexivity|by_evaluation|]. right. by_evaluation.
Defined.

Lemma fit_failure_keeps_mask_witness :
  fit Demo.corrcoef SamplerReady Demo.solver_without_feasible Demo.X Demo.y None None None
    (fresh Demo.fitted_selector) =
    (inl (RuntimeError msg_no_feasible),
     {| this := Demo.fitted_selector;
        solver_log := [SamplerCreated; SampleCqm Demo.cqm None] |}) /\
  _mask Demo.fitted_selector = Some [true; false; false] /\
  sklearn_is_fitted Demo.fitted_selector = true.
Proof.
  assert (Hfit : fit Demo.corrcoef SamplerReady Demo.solver_without_feasible
                   Demo.X Demo.y None None None (fresh Demo.fitted_selector) =
                 (inl (RuntimeError msg_no_feasible),
                  {| this := Demo.fitted_selector;
                     solver_log := [SamplerCreated; SampleCqm Demo.cqm None] |}))
    by by_evaluation.
  split; [exact Hfit|].
  destruct (fit_failure_keeps_mask _ _ _ _ _ _ _ _ _ _ _ Hfit) as [Hmask Hfitted].
  split; [exact Hmask | exact Hfitted].
Defined.

Lemma fit_no_feasible_sample_witness :
  correlation_cqm Demo.corrcoef (atleast_2d Demo.X) Demo.y (1 # 2) 1 true = inr Demo.cqm /\
  Demo.solver_without_feasible Demo.cqm None = Returned [Demo.infeasible_low] /\
  exists w',
    fit Demo.corrcoef SamplerReady Demo.solver_without_feasible Demo.X Demo.y None None None
      (fresh (Demo.selector 1 None)) = (inl (RuntimeError msg_no_feasible), w') /\
    _mask (this w') = None /\
    (_mask (Demo.selector 1 None) = None -> sklearn_is_fitted (this w') = false).
Proof.
  assert (Hcqm : correlation_cqm Demo.corrcoef (atleast_2d Demo.X) Demo.y (1 # 2) 1 true =
                 inr Demo.cqm) by by_evaluation.
  split; [exact Hcqm|]. split; [reflexivity|].
  apply (fit_no_feasible_sample Demo.corrcoef SamplerReady Demo.solver_without_feasible
           Demo.X Demo.y None None None (fresh (Demo.selector 1 None)) Demo.cqm
           [Demo.infeasible_low]).
  - by_evaluation.
  - reflexivity.
  - exact Hcqm.
  - reflexivity.
  - reflexivity.
  - intros d Hd. apply list_elem_of_singleton in Hd. subst d. reflexivity.
Defined.

Lemma fit_selects_lowest_feasible_witness :
  correlation_cqm Demo.corrcoef (atleast_2d Demo.X) Demo.y (1 # 2) 1 true = inr Demo.cqm /\
  exists d mask w',
    d ∈ [Demo.infeasible_low; Demo.feasible_high; Demo.feasible_low] /\
    is_feasible d = true /\
    (forall d', d' ∈ [Demo.infeasible_low; Demo.feasible_high; Demo.feasible_low] ->
                is_feasible d' = true -> (energy d <= energy d')%Q) /\
    fit Demo.corrcoef SamplerReady Demo.solver Demo.X Demo.y None None None
      (fresh (Demo.selector 1 None)) = (inr tt, w') /\
    _mask (this w') = Some mask /\
    mask = map (fun v => negb (default 0 (sample d !! v) =? 0)) (seq 0 (n_columns Demo.X)) /\
    length mask = n_columns Demo.X /\
    (satisfies Demo.cqm (sample d) = true -> sum_mask mask = 1).
Proof.
  assert (Hcqm : correlation_cqm Demo.corrcoef (atleast_2d Demo.X) Demo.y (1 # 2) 1 true =
                 inr Demo.cqm) by by_evaluation.
  split; [exact Hcqm|].
  apply (fit_selects_lowest_feasible Demo.corrcoef SamplerReady Demo.solver
           Demo.X Demo.y None None None (fresh (Demo.selector 1 None)) Demo.cqm
           [Demo.infeasible_low; Demo.feasible_high; Demo.feasible_low]).
  - by_evaluation.
  - reflexivity.
  - exact Hcqm.
  - reflexivity.
  - reflexivity.
  - exists Demo.feasible_low. split; [|reflexivity]. do 2 right. left.
  - intros d v Hd Hv.
    assert (Hvars : variables Demo.cqm = [0; 1; 2]%nat) by by_evaluation.
    rewrite Hvars in Hv.
    repeat (apply elem_of_cons in Hd as [->|Hd]);
      [| | |now apply elem_of_nil in Hd];
      repeat (apply elem_of_cons in Hv as [->|Hv]);
      try (now apply elem_of_nil in Hv); by_evaluation_some.
Defined.

Example fit_demo_mask :
  fit Demo.corrcoef SamplerReady Demo.solver Demo.X Demo.y None None None
    (fresh (Demo.selector 1 None)) =
    (inr tt, {| this := with_mask (Some [false; false; true]) (Demo.selector 1 None);
                solver_log := [SamplerCreated; SampleCqm Demo.cqm None] |}).
Proof. by_evaluation. Qed.

Lemma get_support_mask_unfitted_witness :
  _get_support_mask (fresh (Demo.selector 1 None)) =
    (inl NotFittedError, fresh (Demo.selector 1 None)) /\
  exists w', unfit (fresh Demo.fitted_selector) = (inr tt, w') /\
             sklearn_is_fitted (this w') = false /\
             _get_support_mask w' = (inl NotFittedError, w').
Proof.
  split.
  - apply (get_support_mask_unfitted (fresh (Demo.selector 1 None))). reflexivity.
  - apply (get_support_mask_unfitted (fresh Demo.fitted_selector)) with
      (mask := [true; false; false]). reflexivity.
Defined.

Lemma fit_promotes_X_and_skips_validation_witness :
  ndim Demo.x1 = 1%nat /\
  shape (atleast_2d Demo.x1) = [1%nat; 3%nat] /\
  fit Demo.corrcoef SamplerReady Demo.solver Demo.x1 Demo.X (Some 7%Q) (Some 3) None
    (fresh (Demo.selector 1 None)) =
    (inr tt, fresh (with_mask (Some [true; true; true]) (Demo.selector 1 None))).
Proof.
  assert (Hnd : ndim Demo.x1 = 1%nat) by reflexivity.
  split; [exact Hnd|].
  destruct (fit_promotes_X_and_skips_validation Demo.corrcoef SamplerReady Demo.solver
              Demo.x1 Demo.X (Some 7%Q) (Some 3) None (fresh (Demo.selector 1 None)))
    as [Hshape [_ Hshort]].
  split; [exact (Hshape Hnd)|].
  apply Hshort; by_evaluation.
Defined.

(** ** Further properties: construction and the mask accessors *)

(** X1: [__init__] returns an instance exactly when alpha lies in [0,1], the
    method is "correlation" and num_features is positive; the instance
    stores the arguments as given (the time limit unchecked) and has no
    mask. *)
Theorem init_succeeds_iff alpha method k tl s :
  init alpha method k tl = inr s <->
  in_unit_interval alpha = true /\ method = "correlation"%string /\ 0 < k /\
  s = {| _alpha := alpha; _method := method; _num_features := k;
         _time_limit := tl; _mask := None |}.
Proof.
  unfold init. split.
  - destruct (in_unit_interval alpha); cbn [negb]; [|discriminate].
    destruct (existsb (String.eqb method) ACCEPTED_METHODS) eqn:Hm; cbn [negb];
      [|discriminate].
    destruct (Z.leb_spec k 0) as [|Hk]; [discriminate|].
    intros [= <-]. simpl in Hm. rewrite orb_false_r in Hm. apply String.eqb_eq in Hm.
    repeat split; assumption.
  - intros (Ha & -> & Hk & ->). rewrite Ha. cbn.
    destruct (Z.leb_spec k 0); [lia|reflexivity].
Qed.

(** X2: the checks of [__init__] run in the order alpha, method,
    num_features, and the first one that fails decides the error. *)
Theorem init_error_precedence alpha method k tl :
  (in_unit_interval alpha = false ->
   init alpha method k tl = inl (ValueError msg_alpha_range)) /\
  (in_unit_interval alpha = true -> method <> "correlation"%string ->
   init alpha method k tl = inl (ValueError msg_method)) /\
  (in_unit_interval alpha = true -> method = "correlation"%string -> k <= 0 ->
   init alpha method k tl = inl (ValueError msg_num_features)).
Proof.
  unfold init. split; [|split].
  - intros ->. reflexivity.
  - intros -> Hm. cbn [negb].
    destruct (existsb (String.eqb method) ACCEPTED_METHODS) eqn:He; [|reflexivity].
    exfalso. apply Hm. simpl in He. rewrite orb_false_r in He.
    now apply String.eqb_eq in He.
  - intros -> -> Hk. cbn. destruct (Z.leb_spec k 0); [reflexivity|lia].
Qed.

(** X3: [_get_support_mask] only reads: it leaves the instance and the
    solver log as they are, returns a mask exactly when that mask is stored,
    and never reaches its "fit hasn't been run yet" RuntimeError, because
    [check_is_fitted] has already raised. *)
Theorem get_support_mask_read_only w :
  (_get_support_mask w).2 = w /\
  (forall mask, (_get_support_mask w).1 = inr mask <-> _mask (this w) = Some mask) /\
  (forall m, (_get_support_mask w).1 <> inl (RuntimeError m)).
Proof.
  unfold _get_support_mask, check_is_fitted, get_self, raise, mbind, mret, M_bind,
    M_ret, sklearn_is_fitted.
  cbn. destruct (_mask (this w)) as [mask0|] eqn:Hm; cbn; rewrite ?Hm; cbn.
  - split; [reflexivity|]. split; [|discriminate].
    intros mask. split; congruence.
  - split; [reflexivity|]. split; [|discriminate].
    intros mask. split; discriminate.
Qed.

(** X4: [unfit] on an instance without a mask raises the AttributeError of
    [del self._mask] and changes nothing; on a fitted instance it removes
    the mask and nothing else; and whatever the first call did, a second
    [unfit] in a row raises. *)
Theorem unfit_behaviour w :
  (_mask (this w) = None ->
   unfit w = (inl (AttributeError (msg_no_attribute "_mask")), w)) /\
  (forall mask, _mask (this w) = Some mask ->
   unfit w = (inr tt, {| this := with_mask None (this w); solver_log := solver_log w |})) /\
  (forall r w', unfit w = (r, w') ->
   unfit w' = (inl (AttributeError (msg_no_attribute "_mask")), w')).
Proof.
  unfold unfit, del_mask. split; [|split].
  - intros ->. reflexivity.
  - intros mask ->. reflexivity.
  - intros r w'. destruct (_mask (this w)) eqn:Hm; intros [= <- <-]; cbn.
    + reflexivity.
    + now rewrite Hm.
Qed.

(** ** Further properties: [fit] *)

Lemma fromiter_bool_length (lowest : gmap nat Z) (vars : list nat) (bs : list bool) :
  fromiter_bool lowest vars = inr bs -> length bs = length vars.
Proof.
  revert bs. induction vars as [|v vars IH]; intros bs; simpl.
  - intros [= <-]. reflexivity.
  - destruct (lowest !! v); [|discriminate].
    destruct (fromiter_bool lowest vars) as [e|bs']; [discriminate|].
    intros [= <-]. simpl. f_equal. now apply IH.
Qed.

Lemma first_nonempty (d0 : Sample) (ss : SampleSet) :
  exists d, first (d0 :: ss) = inr d.
Proof.
  destruct (first_lowest (d0 :: ss)) as [d [Hd _]]; [discriminate|]. eauto.
Qed.

Lemma init_returns alpha method k tl s :
  init alpha method k tl = inr s ->
  in_unit_interval alpha = true /\ method = "correlation"%string /\ 0 < k /\
  s = {| _alpha := alpha; _method := method; _num_features := k;
         _time_limit := tl; _mask := None |}.
Proof.
  unfold init.
  destruct (in_unit_interval alpha); cbn [negb]; [|discriminate].
  destruct (existsb (String.eqb method) ACCEPTED_METHODS) eqn:Hm; cbn [negb];
    [|discriminate].
  destruct (Z.leb_spec k 0) as [|Hk]; [discriminate|].
  intros [= <-]. simpl in Hm. rewrite orb_false_r in Hm. apply String.eqb_eq in Hm.
  repeat split; assumption.
Qed.

Section FitProperties.

Variable corrcoef : matrix -> nat -> nat -> Q.
Variable LeapHybridCQMSampler : sampler_outcome.
Variable sample_cqm : CQM -> option Q -> solver_response.

Local Abbreviation run_fit := (fit corrcoef LeapHybridCQMSampler sample_cqm).
Local Abbreviation build_cqm := (correlation_cqm corrcoef).

(** [fit] as a decision tree over its inputs. *)
Lemma fit_unfold X y alpha k tl w :
  run_fit X y alpha k tl w =
    let X2 := atleast_2d X in
    let a := resolve alpha (_alpha (this w)) in
    let K := resolve k (_num_features (this w)) in
    if negb (ndim X2 =? 2)%nat then (inl (ValueError msg_X_ndim), w)
    else if Z.of_nat (shape_at X2 1) <=? K then
      (inr tt, {| this := with_mask (Some (replicate (shape_at X2 1) true)) (this w);
                  solver_log := solver_log w |})
    else if negb (String.eqb (_method (this w)) "correlation") then
      (inl (AttributeError (msg_no_attribute "acceptable_methods")), w)
    else
      match build_cqm X2 y a K true with
      | inl e => (inl e, w)
      | inr cqm =>
          let w0 := {| this := this w; solver_log := solver_log w ++ [SamplerCreated] |} in
          let w1 := {| this := this w;
                       solver_log := solver_log w ++
                         [SamplerCreated; SampleCqm cqm (_time_limit (this w))] |} in
          match LeapHybridCQMSampler with
          | SamplerReady =>
              match sample_cqm cqm (_time_limit (this w)) with
              | Raised c => (inl (client_exception c), w1)
              | Returned ss =>
                  if (length (filter_feasible ss) =? 0)%nat
                  then (inl (RuntimeError msg_no_feasible), w1)
                  else match first (filter_feasible ss) with
                       | inl e => (inl e, w1)
                       | inr d =>
                           match fromiter_bool (sample d) (variables cqm) with
                           | inl e => (inl e, w1)
                           | inr mask =>
                               (inr tt, {| this := with_mask (Some mask) (this w);
                                           solver_log := solver_log w1 |})
                           end
                       end
              end
          | ConfigFileError | SolverAuthenticationError =>
              (inl (RuntimeError msg_sampler_init), w0)
          | SamplerRaised c => (inl (client_exception c), w0)
          end
      end.
Proof.
  unfold fit, new_sampler, call_sample_cqm, log_event, lift, raise,
    set_mask, get_self, mbind, mret, M_bind, M_ret, resolve.
  cbn zeta.
  destruct (negb (ndim (atleast_2d X) =? 2)%nat); [reflexivity|]. cbn beta iota.
  destruct (Z.of_nat (shape_at (atleast_2d X) 1) <=?
            match k with Some a => a | None => _num_features (this w) end);
    [reflexivity|].
  destruct (String.eqb (_method (this w)) "correlation"); cbn [negb]; [|reflexivity].
  destruct (correlation_cqm corrcoef _ _ _ _ _) as [e|cqm]; [reflexivity|].
  cbn. rewrite <- ?app_assoc. cbn [app].
  destruct LeapHybridCQMSampler; try reflexivity.
  cbn. rewrite <- ?app_assoc. cbn [app].
  destruct (sample_cqm cqm (_time_limit (this w))) as [ss|tag]; [|reflexivity].
  destruct (length (filter_feasible ss) =? 0)%nat; [reflexivity|].
  destruct (first (filter_feasible ss)) as [e|d]; [reflexivity|].
  destruct (fromiter_bool (sample d) (variables cqm)); reflexivity.
Qed.

(** What one call of [fit] adds to the solver log. *)
Lemma fit_events X y alpha k tl w r w' :
  run_fit X y alpha k tl w = (r, w') ->
  exists evs,
    solver_log w' = solver_log w ++ evs /\
    (evs = [] \/ evs = [SamplerCreated] \/
     exists cqm,
       evs = [SamplerCreated; SampleCqm cqm (_time_limit (this w))] /\
       build_cqm (atleast_2d X) y (resolve alpha (_alpha (this w)))
         (resolve k (_num_features (this w))) true = inr cqm /\
       resolve k (_num_features (this w)) < Z.of_nat (n_columns X)).
Proof.
  rewrite fit_unfold. cbn zeta. unfold n_columns.
  destruct (negb (ndim (atleast_2d X) =? 2)%nat).
  { intros [= <- <-]. exists []. rewrite app_nil_r. auto. }
  destruct (Z.leb_spec (Z.of_nat (shape_at (atleast_2d X) 1))
              (resolve k (_num_features (this w)))) as [|Hk].
  { intros [= <- <-]. exists []. cbn. rewrite app_nil_r. auto. }
  destruct (negb (String.eqb (_method (this w)) "correlation")).
  { intros [= <- <-]. exists []. rewrite app_nil_r. auto. }
  destruct (build_cqm _ _ _ _ _) as [e|cqm] eqn:Hcqm.
  { intros [= <- <-]. exists []. rewrite app_nil_r. auto. }
  assert (Hsolved : forall r0 this0,
            (r0, {| this := this0;
                    solver_log := solver_log w ++
                      [SamplerCreated; SampleCqm cqm (_time_limit (this w))] |}) = (r, w') ->
            exists evs, solver_log w' = solver_log w ++ evs /\
              (evs = [] \/ evs = [SamplerCreated] \/
               exists cqm0,
                 evs = [SamplerCreated; SampleCqm cqm0 (_time_limit (this w))] /\
                 @inr exn CQM cqm = inr cqm0 /\
                 resolve k (_num_features (this w)) <
                   Z.of_nat (shape_at (atleast_2d X) 1))).
  { intros r0 this0 [= <- <-]. eexists. split; [reflexivity|].
    right. right. exists cqm. auto. }
  destruct LeapHybridCQMSampler;
    try (intros [= <- <-]; exists [SamplerCreated]; cbn; auto).
  destruct (sample_cqm cqm (_time_limit (this w))) as [ss|tag]; [|apply Hsolved].
  destruct (length (filter_feasible ss) =? 0)%nat; [apply Hsolved|].
  destruct (first (filter_feasible ss)) as [e|d]; [apply Hsolved|].
  destruct (fromiter_bool (sample d) (variables cqm)); apply Hsolved.
Qed.

(** [fit] changes nothing of the instance but the mask. *)
Lemma fit_keeps_hyperparameters X y alpha k tl w r w' :
  run_fit X y alpha k tl w = (r, w') ->
  exists mask', this w' = with_mask mask' (this w).
Proof.
  assert (Hsame : this w = with_mask (_mask (this w)) (this w)).
  { destruct (this w). reflexivity. }
  rewrite fit_unfold. cbn zeta.
  repeat case_match; intros [= <- <-]; cbn [this]; eauto.
Qed.

(** A call of [fit] that returns has stored a mask. *)
Lemma fit_returns_fitted X y alpha k tl w w' :
  run_fit X y alpha k tl w = (inr tt, w') -> exists mask, _mask (this w') = Some mask.
Proof.
  rewrite fit_unfold. cbn zeta.
  repeat case_match; intros [= <-]; cbn [this with_mask _mask]; eauto.
Qed.

(** X5: whatever its outcome, one call of [fit] leaves alpha, method,
    num_features and time_limit of the instance as they were (arguments
    passed to [fit] are not stored), and adds to the solver log nothing, or
    the construction of the client, or that construction followed by exactly
    one [sample_cqm] call; it never calls the solver twice. *)
Theorem fit_frame X y alpha k tl w r w' :
  run_fit X y alpha k tl w = (r, w') ->
  _alpha (this w') = _alpha (this w) /\
  _method (this w') = _method (this w) /\
  _num_features (this w') = _num_features (this w) /\
  _time_limit (this w') = _time_limit (this w) /\
  exists evs,
    solver_log w' = solver_log w ++ evs /\
    (evs = [] \/ evs = [SamplerCreated] \/
     exists cqm, evs = [SamplerCreated; SampleCqm cqm (_time_limit (this w))]).
Proof.
  intros Hfit.
  destruct (fit_keeps_hyperparameters _ _ _ _ _ _ _ _ Hfit) as [mask' ->].
  do 4 (split; [reflexivity|]).
  destruct (fit_events _ _ _ _ _ _ _ _ Hfit) as [evs [Hlog Hevs]].
  exists evs. split; [exact Hlog|].
  destruct Hevs as [->|[->|[cqm [-> _]]]]; eauto.
Qed.

(** X6: every call of [fit] that returns leaves the instance fitted with a
    mask that has one entry per column of the promoted X, on the
    short-circuit path and on the solver path alike, whatever the solver
    returned. *)
Theorem fit_success_mask_length X y alpha k tl w w' :
  run_fit X y alpha k tl w = (inr tt, w') ->
  exists mask,
    _mask (this w') = Some mask /\
    length mask = n_columns X /\
    sklearn_is_fitted (this w') = true.
Proof.
  rewrite fit_unfold. cbn zeta. unfold n_columns.
  destruct (negb (ndim (atleast_2d X) =? 2)%nat); [discriminate|].
  destruct (Z.of_nat (shape_at (atleast_2d X) 1) <=? resolve k (_num_features (this w))).
  { intros [= <-]. eexists. split; [reflexivity|]. split; [apply length_replicate|reflexivity]. }
  destruct (negb (String.eqb (_method (this w)) "correlation")); [discriminate|].
  destruct (build_cqm _ _ _ _ _) as [e|cqm] eqn:Hcqm; [discriminate|].
  destruct (correlation_cqm_returns _ _ _ _ _ _ _ Hcqm) as [_ [Hvars _]].
  unfold n_columns in Hvars. rewrite atleast_2d_idemp in Hvars.
  destruct LeapHybridCQMSampler; try discriminate.
  destruct (sample_cqm cqm (_time_limit (this w))) as [ss|tag]; [|discriminate].
  destruct (length (filter_feasible ss) =? 0)%nat; [discriminate|].
  destruct (first (filter_feasible ss)) as [e|d]; [discriminate|].
  destruct (fromiter_bool (sample d) (variables cqm)) as [e|mask] eqn:Hmask; [discriminate|].
  intros [= <-]. exists mask. split; [reflexivity|]. split; [|reflexivity].
  apply fromiter_bool_length in Hmask. rewrite Hmask, Hvars. apply length_seq.
Qed.

(** X7: after a call of [fit] that returns, [_get_support_mask] returns the
    stored mask, and [unfit] succeeds and brings the instance back to what it
    was before the call, without a mask. *)
Theorem fit_then_unfit X y alpha k tl w w' :
  run_fit X y alpha k tl w = (inr tt, w') ->
  exists mask,
    _get_support_mask w' = (inr mask, w') /\
    unfit w' = (inr tt, {| this := with_mask None (this w); solver_log := solver_log w' |}).
Proof.
  intros Hfit.
  destruct (fit_returns_fitted _ _ _ _ _ _ _ Hfit) as [mask Hmask].
  destruct (fit_keeps_hyperparameters _ _ _ _ _ _ _ _ Hfit) as [mask' Hthis].
  exists mask. split.
  - unfold _get_support_mask, check_is_fitted, get_self, raise, mbind, mret, M_bind,
      M_ret, sklearn_is_fitted. cbn. rewrite Hmask. cbn. rewrite Hmask. reflexivity.
  - unfold unfit, del_mask. rewrite Hmask, Hthis. reflexivity.
Qed.

(** X8: a call of [fit] does not look at the mask of an earlier fit: started
    from two instances that differ only in their mask, it gives the same
    result and the same solver calls, and when it returns, the same
    instance. *)
Theorem fit_ignores_previous_mask X y alpha k tl s log mask1 mask2 :
  let o1 := run_fit X y alpha k tl {| this := with_mask mask1 s; solver_log := log |} in
  let o2 := run_fit X y alpha k tl {| this := with_mask mask2 s; solver_log := log |} in
  o1.1 = o2.1 /\ solver_log o1.2 = solver_log o2.2 /\ (o1.1 = inr tt -> o1.2 = o2.2).
Proof.
  cbn zeta. rewrite !fit_unfold. cbn [this solver_log with_mask _alpha _method
    _num_features _time_limit].
  cbn zeta.
  repeat case_match; cbn [fst snd this solver_log with_mask _alpha _method
    _num_features _time_limit]; repeat split; congruence.
Qed.

(** X9: when the model is built but the solver client cannot be
    constructed for a configuration or an authentication error, [fit]
    raises the RuntimeError that points to the solver set-up, the model is
    not dispatched, and the instance is unchanged. *)
Theorem fit_sampler_unavailable X y alpha k tl w cqm :
  resolve k (_num_features (this w)) < Z.of_nat (n_columns X) ->
  _method (this w) = "correlation"%string ->
  build_cqm (atleast_2d X) y (resolve alpha (_alpha (this w)))
    (resolve k (_num_features (this w))) true = inr cqm ->
  LeapHybridCQMSampler = ConfigFileError \/
    LeapHybridCQMSampler = SolverAuthenticationError ->
  run_fit X y alpha k tl w =
    (inl (RuntimeError msg_sampler_init),
     {| this := this w; solver_log := solver_log w ++ [SamplerCreated] |}).
Proof.
  intros Hk Hm Hcqm Hs. rewrite fit_unfold. cbn zeta. unfold n_columns in Hk.
  assert (Hnd : negb (ndim (atleast_2d X) =? 2)%nat = false).
  { revert Hcqm. unfold correlation_cqm. rewrite atleast_2d_idemp.
    destruct (negb (ndim (atleast_2d X) =? 2)%nat); [discriminate | reflexivity]. }
  rewrite Hnd.
  destruct (Z.leb_spec (Z.of_nat (shape_at (atleast_2d X) 1))
              (resolve k (_num_features (this w)))); [lia|].
  rewrite Hm, Hcqm. cbn [String.eqb Ascii.eqb Bool.eqb negb].
  destruct Hs as [-> | ->]; reflexivity.
Qed.

(** X10: every model [fit] hands to the solver is the model
    [correlation_cqm] returns for the promoted X, y, the resolved alpha and
    num_features K and the strict constraint, objective included: its
    variables are the columns 0..m-1, its only constraint is "sum == K",
    with 0 < K < m, and the time budget passed along is the instance's. *)
Theorem fit_dispatches_strict_model X y alpha k tl w r w' cqm t :
  run_fit X y alpha k tl w = (r, w') ->
  SampleCqm cqm t ∈ drop (length (solver_log w)) (solver_log w') ->
  build_cqm (atleast_2d X) y (resolve alpha (_alpha (this w)))
    (resolve k (_num_features (this w))) true = inr cqm /\
  t = _time_limit (this w) /\
  variables cqm = seq 0 (n_columns X) /\
  constraints cqm = [k_hot (n_columns X) true (resolve k (_num_features (this w)))] /\
  0 < resolve k (_num_features (this w)) < Z.of_nat (n_columns X).
Proof.
  intros Hfit Hin.
  destruct (fit_events _ _ _ _ _ _ _ _ Hfit) as [evs [Hlog Hevs]].
  rewrite Hlog, drop_app_length in Hin.
  destruct Hevs as [->|[->|[cqm0 [-> [Hcqm Hk]]]]].
  - now apply elem_of_nil in Hin.
  - apply list_elem_of_singleton in Hin. discriminate.
  - apply elem_of_cons in Hin as [Hin|Hin]; [discriminate|].
    apply list_elem_of_singleton in Hin. injection Hin as -> ->.
    destruct (correlation_cqm_returns _ _ _ _ _ _ _ Hcqm) as [HK [Hvars Hcons]].
    unfold n_columns in Hvars, Hcons. rewrite atleast_2d_idemp in Hvars, Hcons.
    fold (n_columns X) in Hvars, Hcons. repeat split; assumption.
Qed.

(** X11: the model is built before the solver is contacted: whenever a
    call of [fit] added anything to the solver log, X had passed the
    dimension check, the short-circuit did not apply and [correlation_cqm]
    had returned a model for the inputs; and whenever [correlation_cqm]
    raises on that path, [fit] ends in that very exception with the
    instance and the solver log untouched. *)
Theorem fit_validation_precedes_solver X y alpha k tl w r w' :
  run_fit X y alpha k tl w = (r, w') ->
  (solver_log w' <> solver_log w ->
   ndim (atleast_2d X) = 2%nat /\
   resolve k (_num_features (this w)) < Z.of_nat (n_columns X) /\
   exists cqm,
     build_cqm (atleast_2d X) y (resolve alpha (_alpha (this w)))
       (resolve k (_num_features (this w))) true = inr cqm) /\
  (forall e,
     ndim (atleast_2d X) = 2%nat ->
     resolve k (_num_features (this w)) < Z.of_nat (n_columns X) ->
     _method (this w) = "correlation"%string ->
     build_cqm (atleast_2d X) y (resolve alpha (_alpha (this w)))
       (resolve k (_num_features (this w))) true = inl e ->
     r = inl e /\ w' = w).
Proof.
  intros Hfit. split.
  - intros Hlog.
    destruct (fit_events _ _ _ _ _ _ _ _ Hfit) as [evs [Hevs Hshape]].
    assert (Hcontact : exists cqm,
              build_cqm (atleast_2d X) y (resolve alpha (_alpha (this w)))
                (resolve k (_num_features (this w))) true = inr cqm /\
              resolve k (_num_features (this w)) < Z.of_nat (n_columns X)).
    { revert Hfit Hlog. rewrite fit_unfold. cbn zeta. unfold n_columns.
      destruct (negb (ndim (atleast_2d X) =? 2)%nat); [now intros [= _ <-]|].
      destruct (Z.leb_spec (Z.of_nat (shape_at (atleast_2d X) 1))
                  (resolve k (_num_features (this w)))) as [|Hk];
        [now intros [= _ <-]|].
      destruct (negb (String.eqb (_method (this w)) "correlation"));
        [now intros [= _ <-]|].
      destruct (build_cqm _ _ _ _ _) as [e|cqm]; [now intros [= _ <-]|].
      intros _ _. eauto. }
    destruct Hcontact as [cqm [Hcqm Hk]].
    split; [|split; [exact Hk|eauto]].
    revert Hcqm. unfold correlation_cqm. rewrite atleast_2d_idemp.
    destruct (Nat.eqb_spec (ndim (atleast_2d X)) 2); [auto|discriminate].
  - intros e Hnd Hk Hm Hcqm. revert Hfit. rewrite fit_unfold. cbn zeta.
    unfold n_columns in Hk. rewrite Hnd. cbn [Nat.eqb negb].
    destruct (Z.leb_spec (Z.of_nat (shape_at (atleast_2d X) 1))
                (resolve k (_num_features (this w)))); [lia|].
    rewrite Hm, Hcqm. cbn [String.eqb Ascii.eqb Bool.eqb negb].
    intros [= <- <-]. split; reflexivity.
Qed.

(** X12: [fit] and [correlation_cqm] see X only through [np.atleast_2d]: a
    vector of length n and the 1 x n matrix with the same elements give the
    same outcome. *)
Theorem fit_on_promoted_X X y alpha k tl w K strict :
  run_fit X y alpha k tl w = run_fit (atleast_2d X) y alpha k tl w /\
  build_cqm X y (resolve alpha (_alpha (this w))) K strict =
    build_cqm (atleast_2d X) y (resolve alpha (_alpha (this w))) K strict /\
  (forall n d, X = {| shape := [n]; data := d |} ->
     run_fit X y alpha k tl w =
       run_fit {| shape := [1%nat; n]; data := d |} y alpha k tl w).
Proof.
  assert (Hfit : run_fit X y alpha k tl w = run_fit (atleast_2d X) y alpha k tl w).
  { unfold fit. now rewrite atleast_2d_idemp. }
  split; [exact Hfit|]. split.
  - unfold correlation_cqm. now rewrite atleast_2d_idemp.
  - intros n d ->. rewrite Hfit. reflexivity.
Qed.

(** X13: on an instance made by [__init__], a call of [fit] that takes alpha
    and num_features from the instance never fails for a hyperparameter:
    it raises neither the alpha nor the num_features ValueError, nor an
    AttributeError. *)
Theorem constructed_fit_no_hyperparameter_error alpha0 method k0 tl0 s X y tl mask log r w' :
  init alpha0 method k0 tl0 = inr s ->
  run_fit X y None None tl {| this := with_mask mask s; solver_log := log |} = (r, w') ->
  r <> inl (ValueError msg_alpha_range) /\
  r <> inl (ValueError msg_num_features) /\
  (forall n, r <> inl (AttributeError n)).
Proof.
  intros Hinit. apply init_returns in Hinit as (Ha & -> & Hk & ->).
  rewrite fit_unfold. cbn [this solver_log with_mask _alpha _method _num_features
    _time_limit resolve]. cbn zeta.
  assert (Hclient : forall c,
            inl (client_exception c) <> @inl exn unit (ValueError msg_alpha_range) /\
            inl (client_exception c) <> @inl exn unit (ValueError msg_num_features) /\
            (forall n, inl (client_exception c) <> @inl exn unit (AttributeError n))).
  { intros c. destruct c; repeat split; intros; discriminate. }
  destruct (negb (ndim (atleast_2d X) =? 2)%nat);
    [intros [= <- <-]; repeat split; intros; discriminate|].
  destruct (Z.of_nat (shape_at (atleast_2d X) 1) <=? k0);
    [intros [= <- <-]; repeat split; intros; discriminate|].
  cbn [String.eqb Ascii.eqb Bool.eqb negb].
  destruct (build_cqm _ _ _ _ _) as [e|cqm] eqn:Hcqm.
  { intros [= <- <-]. revert Hcqm.
    unfold correlation_cqm, augment, assemble_objective, np_nditer. rewrite Ha.
    cbn [negb]. destruct (Z.leb_spec k0 0); [lia|].
    repeat case_match; intros ?; simplify_eq; repeat split; intros; discriminate. }
  destruct LeapHybridCQMSampler as [| | |c];
    try (intros [= <- <-]; repeat split; intros; discriminate);
    [|intros [= <- <-]; apply Hclient].
  destruct (sample_cqm cqm tl0) as [ss|c]; [|intros [= <- <-]; apply Hclient].
  destruct (filter_feasible ss) as [|d0 fs] eqn:Hflt;
    [intros [= <- <-]; repeat split; intros; discriminate|].
  cbn [length Nat.eqb].
  destruct (first_nonempty d0 fs) as [d ->].
  destruct (fromiter_bool (sample d) (variables cqm)) as [e|bs] eqn:Hbs;
    [|intros [= <- <-]; repeat split; intros; discriminate].
  apply fromiter_bool_raises in Hbs as [v ->].
  intros [= <- <-]; repeat split; intros; discriminate.
Qed.

End FitProperties.

(** ** Further properties: the objective *)

Lemma elem_of_nditer_inv (M : matrix) (u v : nat) (x : Q) :
  (u, v, x) ∈ nditer_multi_index M ->
  exists row, M !! u = Some row /\ row !! v = Some x.
Proof.
  unfold nditer_multi_index. intros Hin.
  apply list_elem_of_In, in_concat in Hin as (l & Hl & Ht).
  apply list_elem_of_In, elem_of_lookup_imap in Hl as (i & row & -> & Hrow).
  apply list_elem_of_In, elem_of_lookup_imap in Ht as (j & x' & Heq & Hx).
  injection Heq as -> -> ->. eauto.
Qed.

Lemma length_concat_uniform {A} (ls : list (list A)) (c : nat) :
  Forall (fun l => length l = c) ls -> length (concat ls) = (length ls * c)%nat.
Proof.
  induction 1 as [|l ls Hl _ IH]; [reflexivity|].
  cbn [concat length]. rewrite length_app, Hl, IH. reflexivity.
Qed.

Lemma length_but_last {A} (l : list A) : length (but_last l) = pred (length l).
Proof. unfold but_last. rewrite length_take. lia. Qed.

Lemma shape_drop_last_row_col (M : matrix) (m : nat) :
  length M = S m -> Forall (fun row => length row = S m) M ->
  length (drop_last_row_col M) = m /\
  Forall (fun row => length row = m) (drop_last_row_col M).
Proof.
  intros Hlen Hrows. unfold drop_last_row_col. split.
  - rewrite length_but_last, length_map, Hlen. reflexivity.
  - apply Forall_forall. intros row Hrow.
    unfold but_last at 1 in Hrow. apply list_elem_of_lookup in Hrow as [i Hrow].
    apply lookup_take_Some in Hrow as [Hrow _].
    rewrite lookup_map in Hrow.
    destruct (M !! i) as [row0|] eqn:Hrow0; [|discriminate].
    injection Hrow as <-. rewrite length_but_last.
    rewrite Forall_forall in Hrows.
    rewrite (Hrows row0) by (apply list_elem_of_lookup; eauto). reflexivity.
Qed.

Lemma entry_out_of_range (M : matrix) (m i j : nat) :
  length M = m -> Forall (fun row => length row = m) M ->
  (m <= i)%nat \/ (m <= j)%nat -> entry M i j = 0%Q.
Proof.
  intros Hlen Hrows Hij. unfold entry.
  destruct (M !! i) as [row|] eqn:Hrow; [|reflexivity]. cbn.
  assert (Hi : (i < m)%nat) by (rewrite <- Hlen; eapply lookup_lt_Some; eauto).
  rewrite Forall_forall in Hrows.
  assert (Hl : length row = m) by (apply Hrows, list_elem_of_lookup; eauto).
  destruct Hij as [Hge|Hge]; [lia|].
  rewrite lookup_ge_None_2 by lia. reflexivity.
Qed.

(** The coefficients of the objective, read off the iterated matrix. *)
Lemma objective_linear_entry (corr : matrix) (alpha : Q) (i : nat) :
  let A := np_absolute corr in
  let filled := fill_diagonal A (map (fun c => (- c * alpha)%Q) (last_column A)) in
  (get_linear (objective_of_terms (objective_terms corr alpha)) i ==
   entry (drop_last_row_col filled) i i)%Q.
Proof.
  cbn zeta. unfold objective_of_terms, objective_terms, objective_matrix.
  rewrite get_linear_fold, term_sum_nditer.
  unfold get_linear, empty_qm. cbn [linear]. rewrite lookup_empty. cbn [default]. ring.
Qed.

Lemma objective_quadratic_entry (corr : matrix) (alpha : Q) (i j : nat) :
  i <> j ->
  let A := np_absolute corr in
  let filled := fill_diagonal A (map (fun c => (- c * alpha)%Q) (last_column A)) in
  (get_quadratic (objective_of_terms (objective_terms corr alpha)) i j ==
   entry (drop_last_row_col filled) i j + entry (drop_last_row_col filled) j i)%Q.
Proof.
  intros Hij. cbn zeta. unfold objective_of_terms, objective_terms, objective_matrix.
  rewrite get_quadratic_fold by assumption. rewrite term_sum_or.
  - rewrite !term_sum_nditer.
    unfold get_quadratic, empty_qm. cbn [quadratic]. rewrite lookup_empty.
    cbn [default]. ring.
  - intros u v. unfold at_pair.
    destruct (Nat.eqb_spec u i), (Nat.eqb_spec v j), (Nat.eqb_spec u j),
      (Nat.eqb_spec v i); cbn [andb]; try reflexivity; congruence.
Qed.

Lemma objective_matrix_shape (corr : matrix) (alpha : Q) (m : nat) :
  length corr = S m -> Forall (fun row => length row = S m) corr ->
  let A := np_absolute corr in
  let filled := fill_diagonal A (map (fun c => (- c * alpha)%Q) (last_column A)) in
  length (drop_last_row_col filled) = m /\
  Forall (fun row => length row = m) (drop_last_row_col filled).
Proof.
  intros Hlen Hrows A filled.
  destruct (shape_np_absolute corr m Hlen Hrows) as [HlenA HrowsA].
  destruct (shape_fill_diagonal (np_absolute corr)
              (map (fun c => (- c * alpha)%Q) (last_column A)) m HlenA HrowsA)
    as [HlenF HrowsF].
  apply shape_drop_last_row_col; assumption.
Qed.

Lemma objective_linear_value (corr : matrix) (alpha : Q) (m i : nat) :
  length corr = S m -> Forall (fun row => length row = S m) corr ->
  (get_linear (objective_of_terms (objective_terms corr alpha)) i ==
   if (i <? m)%nat then - Qabs (entry corr i m) * alpha else 0)%Q.
Proof.
  intros Hlen Hrows. rewrite objective_linear_entry.
  destruct (Nat.ltb_spec i m) as [Hi|Hi].
  - rewrite (objective_matrix_entry corr alpha m i i Hlen Hrows Hi Hi), Nat.eqb_refl.
    reflexivity.
  - destruct (objective_matrix_shape corr alpha m Hlen Hrows) as [HlenD HrowsD].
    rewrite (entry_out_of_range _ m i i HlenD HrowsD) by lia. reflexivity.
Qed.

Lemma objective_quadratic_value (corr : matrix) (alpha : Q) (m i j : nat) :
  length corr = S m -> Forall (fun row => length row = S m) corr -> i <> j ->
  (get_quadratic (objective_of_terms (objective_terms corr alpha)) i j ==
   if (i <? m)%nat && (j <? m)%nat
   then Qabs (entry corr i j) + Qabs (entry corr j i) else 0)%Q.
Proof.
  intros Hlen Hrows Hij. rewrite objective_quadratic_entry by assumption.
  destruct (Nat.ltb_spec i m) as [Hi|Hi], (Nat.ltb_spec j m) as [Hj|Hj]; cbn [andb].
  - rewrite (objective_matrix_entry corr alpha m i j Hlen Hrows Hi Hj).
    rewrite (objective_matrix_entry corr alpha m j i Hlen Hrows Hj Hi).
    destruct (Nat.eqb_spec i j); [contradiction|].
    destruct (Nat.eqb_spec j i); [congruence|]. reflexivity.
  - destruct (objective_matrix_shape corr alpha m Hlen Hrows) as [HlenD HrowsD].
    rewrite (entry_out_of_range _ m i j HlenD HrowsD) by lia.
    rewrite (entry_out_of_range _ m j i HlenD HrowsD) by lia. ring.
  - destruct (objective_matrix_shape corr alpha m Hlen Hrows) as [HlenD HrowsD].
    rewrite (entry_out_of_range _ m i j HlenD HrowsD) by lia.
    rewrite (entry_out_of_range _ m j i HlenD HrowsD) by lia. ring.
  - destruct (objective_matrix_shape corr alpha m Hlen Hrows) as [HlenD HrowsD].
    rewrite (entry_out_of_range _ m i j HlenD HrowsD) by lia.
    rewrite (entry_out_of_range _ m j i HlenD HrowsD) by lia. ring.
Qed.

(** X14: for an (m+1) x (m+1) correlation matrix, [set_objective] receives
    exactly m * m triples, all with both indices below m: the label, at
    index m, is never a variable of the objective, and it gets neither a
    linear nor a quadratic coefficient. *)
Theorem objective_terms_range (corr : matrix) (alpha : Q) (m : nat) :
  length corr = S m ->
  Forall (fun row => length row = S m) corr ->
  let terms := objective_terms corr alpha in
  let obj := objective_of_terms terms in
  length terms = (m * m)%nat /\
  (forall u v x, (u, v, x) ∈ terms -> (u < m)%nat /\ (v < m)%nat) /\
  (forall i, (m <= i)%nat -> (get_linear obj i == 0)%Q) /\
  (forall i j, i <> j -> (m <= i)%nat \/ (m <= j)%nat -> (get_quadratic obj i j == 0)%Q).
Proof.
  intros Hlen Hrows terms obj.
  destruct (objective_matrix_shape corr alpha m Hlen Hrows) as [HlenD HrowsD].
  split; [|split; [|split]].
  - unfold terms, objective_terms, objective_matrix, nditer_multi_index.
    rewrite (length_concat_uniform _ m).
    + now rewrite length_imap, HlenD.
    + apply Forall_forall. intros l Hl.
      apply elem_of_lookup_imap in Hl as (i & row & -> & Hrow).
      rewrite length_imap. rewrite Forall_forall in HrowsD.
      apply HrowsD, list_elem_of_lookup. eauto.
  - intros u v x Hin. unfold terms, objective_terms, objective_matrix in Hin.
    apply elem_of_nditer_inv in Hin as (row & Hrow & Hx).
    rewrite Forall_forall in HrowsD.
    assert (Hl : length row = m) by (apply HrowsD, list_elem_of_lookup; eauto).
    apply lookup_lt_Some in Hrow. apply lookup_lt_Some in Hx. lia.
  - intros i Hi. unfold obj, terms.
    rewrite (objective_linear_value corr alpha m i Hlen Hrows).
    destruct (Nat.ltb_spec i m); [lia|reflexivity].
  - intros i j Hij Hge. unfold obj, terms.
    rewrite (objective_quadratic_value corr alpha m i j Hlen Hrows Hij).
    destruct (Nat.ltb_spec i m), (Nat.ltb_spec j m); cbn [andb]; try reflexivity; lia.
Qed.

(** X15: with alpha >= 0 every linear coefficient of the objective is at
    most 0 (selecting a feature never costs by itself) and every quadratic
    coefficient is at least 0 (selecting two features together never pays). *)
Theorem objective_coefficient_signs (corr : matrix) (alpha : Q) (m : nat) :
  length corr = S m ->
  Forall (fun row => length row = S m) corr ->
  (0 <= alpha)%Q ->
  let obj := objective_of_terms (objective_terms corr alpha) in
  (forall i, (get_linear obj i <= 0)%Q) /\
  (forall i j, i <> j -> (0 <= get_quadratic obj i j)%Q).
Proof.
  intros Hlen Hrows Ha obj. split.
  - intros i. unfold obj. rewrite (objective_linear_value corr alpha m i Hlen Hrows).
    destruct (i <? m)%nat; [|apply Qle_refl].
    assert (Hneg : (- Qabs (entry corr i m) * alpha ==
                    - (Qabs (entry corr i m) * alpha))%Q) by ring.
    rewrite Hneg. apply (Qopp_le_compat 0). apply Qmult_le_0_compat; [apply Qabs_nonneg|exact Ha].
  - intros i j Hij. unfold obj.
    rewrite (objective_quadratic_value corr alpha m i j Hlen Hrows Hij).
    destruct ((i <? m)%nat && (j <? m)%nat); [|apply Qle_refl].
    assert (Hzero : (0 == 0 + 0)%Q) by ring.
    rewrite Hzero at 1. apply Qplus_le_compat; apply Qabs_nonneg.
Qed.

(** X16: alpha weighs the linear coefficients only: with alpha = 0 they
    are all 0, while the quadratic coefficients are the same for every
    alpha (alpha = 1 does not remove the penalty on correlated pairs). *)
Theorem objective_alpha_effect (corr : matrix) (alpha alpha' : Q) (m : nat) :
  length corr = S m ->
  Forall (fun row => length row = S m) corr ->
  ((alpha == 0)%Q ->
   forall i, (get_linear (objective_of_terms (objective_terms corr alpha)) i == 0)%Q) /\
  (forall i j, i <> j ->
     (get_quadratic (objective_of_terms (objective_terms corr alpha)) i j ==
      get_quadratic (objective_of_terms (objective_terms corr alpha')) i j)%Q).
Proof.
  intros Hlen Hrows. split.
  - intros Ha i. rewrite (objective_linear_value corr alpha m i Hlen Hrows).
    destruct (i <? m)%nat; [|reflexivity]. rewrite Ha. ring.
  - intros i j Hij.
    rewrite (objective_quadratic_value corr alpha m i j Hlen Hrows Hij).
    rewrite (objective_quadratic_value corr alpha' m i j Hlen Hrows Hij).
    reflexivity.
Qed.


(** ** Further properties: [correlation_cqm] and the mask *)

Lemma offset_fold (ts : list (nat * nat * Q)) (qm : QuadraticModel) :
  offset (fold_left (fun qm t => add_quadratic t.1.1 t.1.2 t.2 qm) ts qm) = offset qm.
Proof.
  revert qm. induction ts as [|t ts IH]; intros qm; cbn [fold_left]; [reflexivity|].
  rewrite IH. unfold add_quadratic, add_linear. destruct (_ =? _)%nat; reflexivity.
Qed.

Lemma table_shape (f : nat -> nat -> Q) (n : nat) :
  length (map (fun i => map (fun j => f i j) (seq 0 n)) (seq 0 n)) = n /\
  Forall (fun row => length row = n)
    (map (fun i => map (fun j => f i j) (seq 0 n)) (seq 0 n)).
Proof.
  split; [now rewrite length_map, length_seq|].
  apply Forall_forall. intros row Hrow.
  apply list_elem_of_In, in_map_iff in Hrow as (i & <- & _).
  now rewrite length_map, length_seq.
Qed.

Lemma table_entry (f : nat -> nat -> Q) (n i j : nat) :
  (i < n)%nat -> (j < n)%nat ->
  entry (map (fun i => map (fun j => f i j) (seq 0 n)) (seq 0 n)) i j = f i j.
Proof.
  intros Hi Hj. unfold entry.
  rewrite lookup_map, lookup_seq_lt by assumption. cbn.
  rewrite lookup_map, lookup_seq_lt by assumption. reflexivity.
Qed.

Lemma fromiter_bool_missing (lowest : gmap nat Z) (vars : list nat) (e : exn) :
  fromiter_bool lowest vars = inl e ->
  exists v, e = KeyError v /\ v ∈ vars /\ lowest !! v = None.
Proof.
  revert e. induction vars as [|v vars IH]; intros e; simpl; [discriminate|].
  destruct (lowest !! v) eqn:Hv;
    [|intros [= <-]; exists v; split; [reflexivity|split; [left|exact Hv]]].
  destruct (fromiter_bool lowest vars) as [e'|]; [|discriminate].
  intros [= <-]. destruct (IH e' eq_refl) as (v' & -> & Hin & Hnone).
  exists v'. split; [reflexivity|]. split; [now right|exact Hnone].
Qed.

Lemma fromiter_bool_returns_total (lowest : gmap nat Z) (vars : list nat) (bs : list bool) :
  fromiter_bool lowest vars = inr bs -> forall v, v ∈ vars -> is_Some (lowest !! v).
Proof.
  revert bs. induction vars as [|v vars IH]; intros bs Hbs v' Hin.
  - now apply elem_of_nil in Hin.
  - simpl in Hbs. destruct (lowest !! v) as [x|] eqn:Hv; [|discriminate].
    destruct (fromiter_bool lowest vars) as [e|bs'] eqn:Hrec; [discriminate|].
    apply elem_of_cons in Hin as [->|Hin]; [rewrite Hv; eauto|].
    eapply IH; [reflexivity|exact Hin].
Qed.

(** X18: [np.fromiter] over the model's variables returns one boolean per
    variable, true where the sample's value is not 0, exactly when the
    sample has a value for every variable; otherwise it raises the KeyError
    of a variable the sample does not hold. *)
Theorem fromiter_bool_spec (lowest : gmap nat Z) (vars : list nat) :
  (forall bs, fromiter_bool lowest vars = inr bs <->
     (forall v, v ∈ vars -> is_Some (lowest !! v)) /\
     bs = map (fun v => negb (default 0 (lowest !! v) =? 0)) vars) /\
  (forall e, fromiter_bool lowest vars = inl e ->
     exists v, e = KeyError v /\ v ∈ vars /\ lowest !! v = None) /\
  ((exists v, v ∈ vars /\ lowest !! v = None) ->
   exists v, fromiter_bool lowest vars = inl (KeyError v) /\
             v ∈ vars /\ lowest !! v = None).
Proof.
  split; [|split].
  - intros bs. split.
    + intros Hbs. pose proof (fromiter_bool_returns_total _ _ _ Hbs) as Htot.
      split; [exact Htot|]. rewrite (fromiter_bool_total _ _ Htot) in Hbs. congruence.
    + intros [Htot ->]. now apply fromiter_bool_total.
  - intros e He. eapply fromiter_bool_missing; eauto.
  - intros (v & Hin & Hnone).
    destruct (fromiter_bool lowest vars) as [e|bs] eqn:Hbs.
    + destruct (fromiter_bool_missing _ _ _ Hbs) as (v' & -> & Hin' & Hnone'). eauto.
    + exfalso. destruct (fromiter_bool_returns_total _ _ _ Hbs v Hin) as [x Hx].
      congruence.
Qed.

(** X19: [X_copy] has the rows of X, each followed by one more entry, the
    label of that row (or the single label, when y has length 1): the
    feature columns keep their index and the label is the last column.  The
    assignment fails exactly when the length of y is neither the number of
    rows nor 1. *)
Theorem augment_appends_label (X y : ndarray) :
  (forall X_copy, augment X y = inr X_copy ->
     length X_copy = shape_at X 0 /\
     forall r row, X_copy !! r = Some row ->
       but_last row = row_of X r /\
       last row = Some (nth (if bool_decide (shape_at y 0 = shape_at X 0) then r else 0%nat)
                          (data y) 0%Q)) /\
  ((exists e, augment X y = inl e) <->
   shape_at y 0 <> shape_at X 0 /\ shape_at y 0 <> 1%nat).
Proof.
  unfold augment. split.
  - intros X_copy. case_bool_decide as Hn; [|case_bool_decide as H1; [|discriminate]];
      intros [= <-].
    + split; [unfold rows_of; now rewrite length_imap, length_map, length_seq|].
      intros r row Hrow. rewrite list_lookup_imap in Hrow.
      unfold rows_of in Hrow. rewrite lookup_map in Hrow.
      destruct (seq 0 (shape_at X 0) !! r) as [r'|] eqn:Hr; [|discriminate].
      apply lookup_seq in Hr as [-> _]. injection Hrow as <-. cbn [Nat.add].
      split; [|apply last_snoc].
      unfold but_last. rewrite length_app. cbn [length].
      replace (pred (length (row_of X r) + 1)) with (length (row_of X r)) by lia.
      now rewrite take_app_length.
    + split; [unfold rows_of; now rewrite !length_map, length_seq|].
      intros r row Hrow. rewrite lookup_map in Hrow.
      unfold rows_of in Hrow. rewrite lookup_map in Hrow.
      destruct (seq 0 (shape_at X 0) !! r) as [r'|] eqn:Hr; [|discriminate].
      apply lookup_seq in Hr as [-> _]. injection Hrow as <-. cbn [Nat.add].
      split; [|apply last_snoc].
      unfold but_last. rewrite length_app. cbn [length].
      replace (pred (length (row_of X r) + 1)) with (length (row_of X r)) by lia.
      now rewrite take_app_length.
  - repeat case_bool_decide; split; try (intros [e He]; discriminate); try tauto; eauto.
Qed.

Section ModelProperties.

Variable corrcoef : matrix -> nat -> nat -> Q.

Local Abbreviation build_cqm := (correlation_cqm corrcoef).

(** X20: the checks of [correlation_cqm] run in the order X, y, alpha,
    num_features, and the label assignment comes last; the first one that
    fails decides the message of the ValueError. *)
Theorem correlation_cqm_error_precedence X y alpha K strict :
  ((2 < ndim X)%nat -> build_cqm X y alpha K strict = inl (ValueError msg_X_ndim)) /\
  ((ndim X <= 2)%nat -> ndim y <> 1%nat ->
   build_cqm X y alpha K strict = inl (ValueError msg_y_ndim)) /\
  ((ndim X <= 2)%nat -> ndim y = 1%nat -> in_unit_interval alpha = false ->
   build_cqm X y alpha K strict = inl (ValueError msg_alpha_range)) /\
  ((ndim X <= 2)%nat -> ndim y = 1%nat -> in_unit_interval alpha = true -> K <= 0 ->
   build_cqm X y alpha K strict = inl (ValueError msg_num_features)) /\
  ((ndim X <= 2)%nat -> ndim y = 1%nat -> in_unit_interval alpha = true -> 0 < K ->
   shape_at y 0 <> shape_at (atleast_2d X) 0 -> shape_at y 0 <> 1%nat ->
   build_cqm X y alpha K strict = inl (ValueError msg_broadcast)).
Proof.
  unfold correlation_cqm. split; [|split; [|split; [|split]]].
  - intros HX. apply atleast_2d_ndim_check in HX. now rewrite HX.
  - intros HX Hy. rewrite (atleast_2d_ndim_le2 X HX). cbn [Nat.eqb negb].
    apply Nat.eqb_neq in Hy. now rewrite Hy.
  - intros HX Hy Ha. rewrite (atleast_2d_ndim_le2 X HX), Hy, Ha. reflexivity.
  - intros HX Hy Ha HK. rewrite (atleast_2d_ndim_le2 X HX), Hy, Ha. cbn [Nat.eqb negb].
    destruct (Z.leb_spec K 0); [reflexivity|lia].
  - intros HX Hy Ha HK Hn H1. rewrite (atleast_2d_ndim_le2 X HX), Hy, Ha.
    cbn [Nat.eqb negb]. destruct (Z.leb_spec K 0); [lia|].
    unfold augment. rewrite !bool_decide_eq_false_2 by assumption. reflexivity.
Qed.

(** X21: in the model [correlation_cqm] returns, the linear coefficient of
    feature i is -alpha times the absolute value of what [corrcoef] wrote
    for (feature i, label), the quadratic coefficient of two distinct
    features is the sum of the absolute values written at (i, j) and (j, i),
    and the objective has no constant term. *)
Theorem correlation_cqm_coefficients X y alpha K strict cqm :
  build_cqm X y alpha K strict = inr cqm ->
  exists X_copy,
    augment (atleast_2d X) y = inr X_copy /\
    offset (objective cqm) = 0%Q /\
    (forall i, (i < n_columns X)%nat ->
       (get_linear (objective cqm) i ==
        - alpha * Qabs (corrcoef X_copy i (n_columns X)))%Q) /\
    (forall i j, (i < n_columns X)%nat -> (j < n_columns X)%nat -> i <> j ->
       (get_quadratic (objective cqm) i j ==
        Qabs (corrcoef X_copy i j) + Qabs (corrcoef X_copy j i))%Q).
Proof.
  intros Hcqm.
  destruct (correlation_cqm_objective corrcoef _ _ _ _ _ _ Hcqm) as (X_copy & Haug & Hobj).
  cbn zeta in Hobj. exists X_copy. split; [exact Haug|].
  set (m := n_columns X) in *.
  destruct (table_shape (corrcoef X_copy) (S m)) as [Hlen Hrows].
  rewrite Hobj. split; [|split].
  - unfold objective_of_terms. now rewrite offset_fold.
  - intros i Hi. rewrite (objective_linear_value _ alpha m i Hlen Hrows).
    destruct (Nat.ltb_spec i m); [|lia].
    rewrite table_entry by lia. ring.
  - intros i j Hi Hj Hij. rewrite (objective_quadratic_value _ alpha m i j Hlen Hrows Hij).
    destruct (Nat.ltb_spec i m); [|lia]. destruct (Nat.ltb_spec j m); [|lia].
    cbn [andb]. rewrite !table_entry by lia. reflexivity.
Qed.

(** X22: a sample that satisfies a model returned by [correlation_cqm]
    (0/1 values, the constraint holds) projects to a mask with one entry per
    column whose number of true entries is exactly K under the strict
    constraint and at most K under the relaxed one. *)
Theorem feasible_sample_mask_cardinality X y alpha K strict cqm (s : gmap nat Z) :
  build_cqm X y alpha K strict = inr cqm ->
  satisfies cqm s = true ->
  exists mask,
    fromiter_bool s (variables cqm) = inr mask /\
    length mask = n_columns X /\
    (if strict then sum_mask mask = K else sum_mask mask <= K).
Proof.
  intros Hcqm Hsat.
  destruct (correlation_cqm_returns corrcoef _ _ _ _ _ _ Hcqm) as [_ [Hvars Hcons]].
  unfold satisfies in Hsat. rewrite Hvars, Hcons in Hsat.
  apply andb_prop in Hsat as [Hbin Hc].
  assert (Htot : forall v, v ∈ seq 0 (n_columns X) -> is_Some (s !! v)).
  { intros v Hv. rewrite forallb_forall in Hbin.
    apply list_elem_of_In, Hbin in Hv. unfold binary_value in Hv.
    destruct (s !! v); [eauto|discriminate]. }
  eexists. rewrite Hvars. split; [apply (fromiter_bool_total _ _ Htot)|].
  split; [now rewrite length_map, length_seq|].
  rewrite (sum_mask_binary _ _ Hbin).
  cbn in Hc. rewrite andb_true_r in Hc. unfold constraint_holds, k_hot in Hc.
  cbn [cmp lhs rhs] in Hc.
  destruct strict; [now apply Z.eqb_eq in Hc|now apply Z.leb_le in Hc].
Qed.

End ModelProperties.

(** ** The further properties on the small data set *)

Lemma init_succeeds_iff_witness :
  init (1 # 2) "correlation" 10 (Some (-3)%Q) =
    inr {| _alpha := 1 # 2; _method := "correlation"; _num_features := 10;
           _time_limit := Some (-3)%Q; _mask := None |}.
Proof.
  apply (init_succeeds_iff (1 # 2) "correlation" 10 (Some (-3)%Q)).
  split; [reflexivity|]. split; [reflexivity|]. split; [lia|reflexivity].
Defined.

Lemma init_error_precedence_witness :
  init 2 "mutual information" 0 None = inl (ValueError msg_alpha_range) /\
  init 1 "mutual information" 0 None = inl (ValueError msg_method) /\
  init 1 "correlation" 0 None = inl (ValueError msg_num_features).
Proof.
  split; [|split].
  - apply (init_error_precedence 2 "mutual information" 0 None). reflexivity.
  - apply (init_error_precedence 1 "mutual information" 0 None);
      [reflexivity|discriminate].
  - apply (init_error_precedence 1 "correlation" 0 None); [reflexivity|reflexivity|lia].
Defined.

Lemma get_support_mask_read_only_witness :
  (_get_support_mask (fresh Demo.fitted_selector)).1 = inr [true; false; false].
Proof.
  apply (get_support_mask_read_only (fresh Demo.fitted_selector)). reflexivity.
Defined.

Lemma unfit_behaviour_witness :
  unfit (fresh (Demo.selector 1 None)) =
    (inl (AttributeError (msg_no_attribute "_mask")), fresh (Demo.selector 1 None)) /\
  unfit (fresh Demo.fitted_selector) = (inr tt, fresh (Demo.selector 1 None)) /\
  unfit (fresh (Demo.selector 1 None)) =
    (inl (AttributeError (msg_no_attribute "_mask")), fresh (Demo.selector 1 None)).
Proof.
  split; [|split].
  - apply (unfit_behaviour (fresh (Demo.selector 1 None))). reflexivity.
  - apply (unfit_behaviour (fresh Demo.fitted_selector)) with (mask := [true; false; false]).
    reflexivity.
  - apply (unfit_behaviour (fresh Demo.fitted_selector)) with (r := inr tt). reflexivity.
Defined.

Lemma fit_frame_witness :
  let w' := (fit Demo.corrcoef SamplerReady Demo.solver Demo.X Demo.y (Some 1%Q) (Some 2)
               (Some 10%Q) (fresh (Demo.selector 1 (Some 5%Q)))).2 in
  _alpha (this w') = (1 # 2)%Q /\
  _method (this w') = "correlation"%string /\
  _num_features (this w') = 1 /\
  _time_limit (this w') = Some 5%Q /\
  exists evs,
    solver_log w' = [] ++ evs /\
    (evs = [] \/ evs = [SamplerCreated] \/
     exists cqm, evs = [SamplerCreated; SampleCqm cqm (Some 5%Q)]).
Proof.
  apply (fit_frame Demo.corrcoef SamplerReady Demo.solver Demo.X Demo.y (Some 1%Q) (Some 2)
           (Some 10%Q) (fresh (Demo.selector 1 (Some 5%Q)))
           (fit Demo.corrcoef SamplerReady Demo.solver Demo.X Demo.y (Some 1%Q) (Some 2)
              (Some 10%Q) (fresh (Demo.selector 1 (Some 5%Q)))).1).
  apply surjective_pairing.
Defined.

Lemma fit_success_mask_length_witness :
  exists mask,
    _mask (this {| this := with_mask (Some [false; false; true]) (Demo.selector 1 None);
                   solver_log := [SamplerCreated; SampleCqm Demo.cqm None] |}) = Some mask /\
    length mask = n_columns Demo.X /\
    sklearn_is_fitted (with_mask (Some [false; false; true]) (Demo.selector 1 None)) = true.
Proof.
  apply (fit_success_mask_length Demo.corrcoef SamplerReady Demo.solver Demo.X Demo.y
           None None None (fresh (Demo.selector 1 None))).
  by_evaluation.
Defined.

Lemma fit_then_unfit_witness :
  let w' := {| this := with_mask (Some [false; false; true]) (Demo.selector 1 None);
               solver_log := [SamplerCreated; SampleCqm Demo.cqm None] |} in
  exists mask,
    _get_support_mask w' = (inr mask, w') /\
    unfit w' = (inr tt, {| this := with_mask None (Demo.selector 1 None);
                           solver_log := solver_log w' |}).
Proof.
  apply (fit_then_unfit Demo.corrcoef SamplerReady Demo.solver Demo.X Demo.y
           None None None (fresh (Demo.selector 1 None))).
  by_evaluation.
Defined.

Lemma fit_ignores_previous_mask_witness :
  let o1 := fit Demo.corrcoef SamplerReady Demo.solver Demo.X Demo.y None None None
              (fresh (with_mask None (Demo.selector 1 None))) in
  let o2 := fit Demo.corrcoef SamplerReady Demo.solver Demo.X Demo.y None None None
              (fresh (with_mask (Some [true; false; false]) (Demo.selector 1 None))) in
  o1.1 = inr tt /\ o1.2 = o2.2.
Proof.
  cbn zeta.
  destruct (fit_ignores_previous_mask Demo.corrcoef SamplerReady Demo.solver Demo.X Demo.y
              None None None (Demo.selector 1 None) [] None (Some [true; false; false]))
    as [_ [_ Hsame]].
  assert (Hok : (fit Demo.corrcoef SamplerReady Demo.solver Demo.X Demo.y None None None
                   (fresh (with_mask None (Demo.selector 1 None)))).1 = inr tt)
    by by_evaluation.
  split; [exact Hok|]. exact (Hsame Hok).
Defined.

Lemma fit_sampler_unavailable_witness :
  fit Demo.corrcoef ConfigFileError Demo.solver Demo.X Demo.y None None None
    (fresh Demo.fitted_selector) =
    (inl (RuntimeError msg_sampler_init),
     {| this := Demo.fitted_selector; solver_log := [SamplerCreated] |}).
Proof.
  apply (fit_sampler_unavailable Demo.corrcoef ConfigFileError Demo.solver Demo.X Demo.y
           None None None (fresh Demo.fitted_selector) Demo.cqm).
  - by_evaluation.
  - reflexivity.
  - by_evaluation.
  - left. reflexivity.
Defined.

Lemma fit_dispatches_strict_model_witness :
  correlation_cqm Demo.corrcoef (atleast_2d Demo.X) Demo.y (1 # 2) 1 true = inr Demo.cqm /\
  None = _time_limit (Demo.selector 1 None) /\
  variables Demo.cqm = seq 0 (n_columns Demo.X) /\
  constraints Demo.cqm = [k_hot (n_columns Demo.X) true 1] /\
  0 < 1 < Z.of_nat (n_columns Demo.X).
Proof.
  apply (fit_dispatches_strict_model Demo.corrcoef SamplerReady Demo.solver Demo.X Demo.y
           None None None (fresh (Demo.selector 1 None)) (inr tt)
           {| this := with_mask (Some [false; false; true]) (Demo.selector 1 None);
              solver_log := [SamplerCreated; SampleCqm Demo.cqm None] |}).
  - by_evaluation.
  - cbn. right. left.
Defined.

Lemma fit_validation_precedes_solver_witness :
  (ndim (atleast_2d Demo.X) = 2%nat /\
   1 < Z.of_nat (n_columns Demo.X) /\
   exists cqm,
     correlation_cqm Demo.corrcoef (atleast_2d Demo.X) Demo.y (1 # 2) 1 true = inr cqm) /\
  (fit Demo.corrcoef SamplerReady Demo.solver Demo.X Demo.X None None None
     (fresh Demo.fitted_selector)).1 = inl (ValueError msg_y_ndim) /\
  (fit Demo.corrcoef SamplerReady Demo.solver Demo.X Demo.X None None None
     (fresh Demo.fitted_selector)).2 = fresh Demo.fitted_selector.
Proof.
  split.
  - apply (fit_validation_precedes_solver Demo.corrcoef SamplerReady Demo.solver
             Demo.X Demo.y None None None (fresh (Demo.selector 1 None)) (inr tt)
             {| this := with_mask (Some [false; false; true]) (Demo.selector 1 None);
                solver_log := [SamplerCreated; SampleCqm Demo.cqm None] |}).
    + by_evaluation.
    + discriminate.
  - apply (fit_validation_precedes_solver Demo.corrcoef SamplerReady Demo.solver
             Demo.X Demo.X None None None (fresh Demo.fitted_selector)
             (fit Demo.corrcoef SamplerReady Demo.solver Demo.X Demo.X None None None
                (fresh Demo.fitted_selector)).1
             (fit Demo.corrcoef SamplerReady Demo.solver Demo.X Demo.X None None None
                (fresh Demo.fitted_selector)).2).
    + apply surjective_pairing.
    + reflexivity.
    + by_evaluation.
    + reflexivity.
    + by_evaluation.
Defined.

Lemma fit_on_promoted_X_witness :
  fit Demo.corrcoef SamplerReady Demo.solver Demo.x1 Demo.y None None None
    (fresh (Demo.selector 1 None)) =
  fit Demo.corrcoef SamplerReady Demo.solver
    {| shape := [1%nat; 3%nat]; data := [1; 2; 3]%Q |} Demo.y None None None
    (fresh (Demo.selector 1 None)).
Proof.
  apply (fit_on_promoted_X Demo.corrcoef SamplerReady Demo.solver Demo.x1 Demo.y
           None None None (fresh (Demo.selector 1 None)) 1 true).
  reflexivity.
Defined.

Lemma constructed_fit_no_hyperparameter_error_witness :
  let r := (fit Demo.corrcoef SamplerReady Demo.solver Demo.X Demo.X None None None
              (fresh (with_mask None (Demo.selector 1 None)))).1 in
  r <> inl (ValueError msg_alpha_range) /\
  r <> inl (ValueError msg_num_features) /\
  (forall n, r <> inl (AttributeError n)).
Proof.
  apply (constructed_fit_no_hyperparameter_error Demo.corrcoef SamplerReady Demo.solver
           (1 # 2) "correlation" 1 None (Demo.selector 1 None) Demo.X Demo.X None None []
           (fit Demo.corrcoef SamplerReady Demo.solver Demo.X Demo.X None None None
              (fresh (with_mask None (Demo.selector 1 None)))).1
           (fit Demo.corrcoef SamplerReady Demo.solver Demo.X Demo.X None None None
              (fresh (with_mask None (Demo.selector 1 None)))).2).
  - reflexivity.
  - apply surjective_pairing.
Defined.

Lemma demo_correlations_shape :
  length Demo.correlations = 4%nat /\
  Forall (fun row => length row = 4%nat) Demo.correlations.
Proof. split; [reflexivity|repeat constructor]. Qed.

Lemma objective_terms_range_witness :
  let terms := objective_terms Demo.correlations (1 # 2) in
  let obj := objective_of_terms terms in
  length terms = 9%nat /\
  (forall u v x, (u, v, x) ∈ terms -> (u < 3)%nat /\ (v < 3)%nat) /\
  (forall i, (3 <= i)%nat -> (get_linear obj i == 0)%Q) /\
  (forall i j, i <> j -> (3 <= i)%nat \/ (3 <= j)%nat -> (get_quadratic obj i j == 0)%Q).
Proof.
  destruct demo_correlations_shape as [Hlen Hrows].
  exact (objective_terms_range Demo.correlations (1 # 2) 3 Hlen Hrows).
Defined.

Lemma objective_coefficient_signs_witness :
  let obj := objective_of_terms (objective_terms Demo.correlations (1 # 2)) in
  (forall i, (get_linear obj i <= 0)%Q) /\
  (forall i j, i <> j -> (0 <= get_quadratic obj i j)%Q).
Proof.
  destruct demo_correlations_shape as [Hlen Hrows].
  apply (objective_coefficient_signs Demo.correlations (1 # 2) 3 Hlen Hrows).
  by_evaluation.
Defined.

Lemma objective_alpha_effect_witness :
  (forall i, (get_linear (objective_of_terms (objective_terms Demo.correlations 0)) i == 0)%Q) /\
  (get_quadratic (objective_of_terms (objective_terms Demo.correlations 0)) 0 1 ==
   get_quadratic (objective_of_terms (objective_terms Demo.correlations 1)) 0 1)%Q.
Proof.
  destruct demo_correlations_shape as [Hlen Hrows].
  destruct (objective_alpha_effect Demo.correlations 0 1 3 Hlen Hrows) as [Hlin Hquad].
  split.
  - apply Hlin. reflexivity.
  - apply Hquad. lia.
Defined.


Lemma fromiter_bool_spec_witness :
  fromiter_bool (Demo.assignment [0; 2; 1]) [0; 1; 2]%nat = inr [false; true; true] /\
  (exists v, KeyError 2 = KeyError v /\ v ∈ [0; 1; 2]%nat /\
             Demo.assignment [0; 1] !! v = None) /\
  (exists v, fromiter_bool (Demo.assignment [0; 1]) [0; 1; 2]%nat = inl (KeyError v) /\
             v ∈ [0; 1; 2]%nat /\ Demo.assignment [0; 1] !! v = None).
Proof.
  split; [|split].
  - apply (fromiter_bool_spec (Demo.assignment [0; 2; 1]) [0; 1; 2]%nat). split.
    + intros v Hv.
      repeat (apply elem_of_cons in Hv as [->|Hv]); [| | |now apply elem_of_nil in Hv];
        by_evaluation_some.
    + reflexivity.
  - apply (fromiter_bool_spec (Demo.assignment [0; 1]) [0; 1; 2]%nat). reflexivity.
  - apply (fromiter_bool_spec (Demo.assignment [0; 1]) [0; 1; 2]%nat).
    exists 2%nat. split; [|reflexivity]. do 2 right. left.
Defined.

Lemma augment_appends_label_witness :
  (length [[1; 2; 3; 0]; [4; 6; 5; 1]]%Q = shape_at Demo.X 0) /\
  (exists e, augment Demo.X Demo.x1 = inl e).
Proof.
  destruct (augment_appends_label Demo.X Demo.y) as [Hrows _].
  destruct (augment_appends_label Demo.X Demo.x1) as [_ Hfail].
  split.
  - apply (Hrows [[1; 2; 3; 0]; [4; 6; 5; 1]]%Q). reflexivity.
  - apply Hfail. split; by_evaluation.
Defined.

Lemma correlation_cqm_error_precedence_witness :
  correlation_cqm Demo.corrcoef Demo.X Demo.X 2 0 true = inl (ValueError msg_y_ndim) /\
  correlation_cqm Demo.corrcoef Demo.X Demo.y 2 0 true = inl (ValueError msg_alpha_range) /\
  correlation_cqm Demo.corrcoef Demo.X Demo.y 1 0 true = inl (ValueError msg_num_features) /\
  correlation_cqm Demo.corrcoef Demo.X Demo.x1 1 1 true = inl (ValueError msg_broadcast).
Proof.
  split; [|split; [|split]].
  - apply (correlation_cqm_error_precedence Demo.corrcoef Demo.X Demo.X 2 0 true);
      by_evaluation.
  - apply (correlation_cqm_error_precedence Demo.corrcoef Demo.X Demo.y 2 0 true);
      by_evaluation.
  - apply (correlation_cqm_error_precedence Demo.corrcoef Demo.X Demo.y 1 0 true);
      by_evaluation.
  - apply (correlation_cqm_error_precedence Demo.corrcoef Demo.X Demo.x1 1 1 true);
      by_evaluation.
Defined.

Lemma correlation_cqm_coefficients_witness :
  exists X_copy,
    augment (atleast_2d Demo.X) Demo.y = inr X_copy /\
    offset (objective Demo.cqm) = 0%Q /\
    (forall i, (i < n_columns Demo.X)%nat ->
       (get_linear (objective Demo.cqm) i ==
        - (1 # 2) * Qabs (Demo.corrcoef X_copy i (n_columns Demo.X)))%Q) /\
    (forall i j, (i < n_columns Demo.X)%nat -> (j < n_columns Demo.X)%nat -> i <> j ->
       (get_quadratic (objective Demo.cqm) i j ==
        Qabs (Demo.corrcoef X_copy i j) + Qabs (Demo.corrcoef X_copy j i))%Q).
Proof.
  apply (correlation_cqm_coefficients Demo.corrcoef Demo.X Demo.y (1 # 2) 1 true Demo.cqm).
  by_evaluation.
Defined.

Lemma feasible_sample_mask_cardinality_witness :
  exists mask,
    fromiter_bool (sample Demo.feasible_low) (variables Demo.cqm) = inr mask /\
    length mask = n_columns Demo.X /\
    sum_mask mask = 1.
Proof.
  apply (feasible_sample_mask_cardinality Demo.corrcoef Demo.X Demo.y (1 # 2) 1 true
           Demo.cqm (sample Demo.feasible_low)); by_evaluation.
Defined.

(** ** The objective and the constraint of the returned model *)

Lemma array_size_objective_matrix (corr : matrix) (alpha : Q) (m : nat) :
  length corr = S m -> Forall (fun row => length row = S m) corr ->
  array_size (objective_matrix corr alpha) = (m * m)%nat.
Proof.
  intros Hlen Hrows.
  destruct (objective_matrix_shape corr alpha m Hlen Hrows) as [HlenD HrowsD].
  unfold array_size, objective_matrix.
  rewrite (length_concat_uniform _ m HrowsD). now rewrite HlenD.
Qed.

Lemma assemble_objective_succeeds (corr : matrix) (alpha : Q) (m : nat) (cqm : CQM) :
  length corr = S m -> Forall (fun row => length row = S m) corr -> (0 < m)%nat ->
  assemble_objective corr alpha cqm = inr (set_objective (objective_terms corr alpha) cqm).
Proof.
  intros Hlen Hrows Hm. unfold assemble_objective, np_nditer, objective_terms.
  rewrite (array_size_objective_matrix corr alpha m Hlen Hrows).
  destruct (Nat.eqb_spec (m * m) 0) as [Hz|_]; [nia|reflexivity].
Qed.

Section ReturnedModel.

Variable corrcoef : matrix -> nat -> nat -> Q.

Local Abbreviation build_cqm := (correlation_cqm corrcoef).

(** A model is returned only for a matrix with at least one column. *)
Lemma correlation_cqm_returns_columns X y alpha K strict cqm :
  build_cqm X y alpha K strict = inr cqm -> (0 < n_columns X)%nat.
Proof.
  unfold correlation_cqm. fold (n_columns X).
  destruct (negb (ndim (atleast_2d X) =? 2)%nat); [discriminate|].
  destruct (negb (ndim y =? 1)%nat); [discriminate|].
  destruct (negb (in_unit_interval alpha)); [discriminate|].
  destruct (K <=? 0); [discriminate|].
  destruct (augment (atleast_2d X) y) as [e|X_copy]; [discriminate|].
  intros [_ Hsize]%assemble_objective_returns.
  destruct (table_shape (corrcoef X_copy) (S (n_columns X))) as [Hlen Hrows].
  rewrite (array_size_objective_matrix _ alpha (n_columns X) Hlen Hrows) in Hsize. nia.
Qed.

(** C1: lines 190-199 on an (m+1) x (m+1) correlation matrix whose last row
    and column belong to the label.  For m >= 1 the objective is assembled,
    and in every model that comes back the objective is the sum of the
    triples handed to [set_objective]: for every feature i the diagonal
    triple with bias -|corr(i, label)| * alpha, so that the linear
    coefficient of i is -alpha * |corr(i, label)|, and for distinct features
    i and j both (i, j, |corr(i, j)|) and (j, i, |corr(j, i)|), with no
    factor depending on alpha, which add up on the pair {i, j}; variables
    and constraints are left as they were.  The model [correlation_cqm]
    returns has these coefficients for the matrix [corrcoef] wrote. *)
Theorem assemble_objective_coefficients (corr : matrix) (alpha : Q) (m : nat) (cqm : CQM) :
  length corr = S m ->
  Forall (fun row => length row = S m) corr ->
  ((0 < m)%nat -> exists cqm', assemble_objective corr alpha cqm = inr cqm') /\
  (forall cqm', assemble_objective corr alpha cqm = inr cqm' ->
     variables cqm' = variables cqm /\
     constraints cqm' = constraints cqm /\
     objective cqm' = objective_of_terms (objective_terms corr alpha) /\
     (forall i, (i < m)%nat ->
        (i, i, (- Qabs (entry corr i m) * alpha)%Q) ∈ objective_terms corr alpha /\
        (get_linear (objective cqm') i == - alpha * Qabs (entry corr i m))%Q) /\
     (forall i j, (i < m)%nat -> (j < m)%nat -> i <> j ->
        (i, j, Qabs (entry corr i j)) ∈ objective_terms corr alpha /\
        (j, i, Qabs (entry corr j i)) ∈ objective_terms corr alpha /\
        (get_quadratic (objective cqm') i j ==
         Qabs (entry corr i j) + Qabs (entry corr j i))%Q)) /\
  (forall X y K strict model,
     build_cqm X y alpha K strict = inr model ->
     exists X_copy,
       augment (atleast_2d X) y = inr X_copy /\
       (forall i, (i < n_columns X)%nat ->
          (get_linear (objective model) i ==
           - alpha * Qabs (corrcoef X_copy i (n_columns X)))%Q) /\
       (forall i j, (i < n_columns X)%nat -> (j < n_columns X)%nat -> i <> j ->
          (get_quadratic (objective model) i j ==
           Qabs (corrcoef X_copy i j) + Qabs (corrcoef X_copy j i))%Q)).
Proof.
  intros Hlen Hrows. split; [|split].
  - intros Hm. eexists. apply (assemble_objective_succeeds corr alpha m cqm Hlen Hrows Hm).
  - intros cqm' [-> _]%assemble_objective_returns.
    cbn [set_objective variables constraints objective].
    do 3 (split; [reflexivity|]).
    apply (objective_terms_coefficients corr alpha m Hlen Hrows).
  - intros X y K strict model Hcqm.
    destruct (correlation_cqm_objective corrcoef _ _ _ _ _ _ Hcqm) as (X_copy & Haug & Hobj).
    cbn zeta in Hobj. exists X_copy. split; [exact Haug|].
    set (n := n_columns X) in *.
    destruct (table_shape (corrcoef X_copy) (S n)) as [HlenT HrowsT].
    rewrite Hobj. split.
    + intros i Hi. rewrite (objective_linear_value _ alpha n i HlenT HrowsT).
      destruct (Nat.ltb_spec i n); [|lia]. rewrite table_entry by lia. ring.
    + intros i j Hi Hj Hij.
      rewrite (objective_quadratic_value _ alpha n i j HlenT HrowsT Hij).
      destruct (Nat.ltb_spec i n); [|lia]. destruct (Nat.ltb_spec j n); [|lia].
      cbn [andb]. rewrite !table_entry by lia. reflexivity.
Qed.

(** C8, as the code has it: [correlation_cqm] raises a ValueError for every
    K <= 0; for K > 0, a matrix with at least one column and otherwise valid
    arguments it returns a model over the variables 0..m-1 (m the number of
    columns) whose only constraint has every variable with coefficient 1,
    sense '==' when strict and '<=' when not, and right-hand side K; and
    every model it returns is of that form, for K > 0 and m >= 1. *)
Theorem correlation_cqm_cardinality_constraint X y alpha K strict :
  (K <= 0 -> exists m, build_cqm X y alpha K strict = inl (ValueError m)) /\
  (0 < K -> (0 < n_columns X)%nat ->
   (ndim X <= 2)%nat -> ndim y = 1%nat -> in_unit_interval alpha = true ->
   shape_at y 0 = shape_at (atleast_2d X) 0 \/ shape_at y 0 = 1%nat ->
   exists cqm, build_cqm X y alpha K strict = inr cqm /\
               variables cqm = seq 0 (n_columns X) /\
               constraints cqm = [k_hot (n_columns X) strict K]) /\
  (forall cqm, build_cqm X y alpha K strict = inr cqm ->
     0 < K /\ (0 < n_columns X)%nat /\
     variables cqm = seq 0 (n_columns X) /\
     constraints cqm = [k_hot (n_columns X) strict K]).
Proof.
  assert (Hret : forall cqm, build_cqm X y alpha K strict = inr cqm ->
            0 < K /\ (0 < n_columns X)%nat /\
            variables cqm = seq 0 (n_columns X) /\
            constraints cqm = [k_hot (n_columns X) strict K]).
  { intros cqm Hcqm.
    destruct (correlation_cqm_returns corrcoef _ _ _ _ _ _ Hcqm) as [HK [Hvars Hcons]].
    pose proof (correlation_cqm_returns_columns _ _ _ _ _ _ Hcqm) as Hcols.
    repeat split; assumption. }
  split; [|split; [|exact Hret]].
  - intros HK. destruct (build_cqm X y alpha K strict) as [e|cqm] eqn:Hb.
    + destruct (correlation_cqm_raises_ValueError corrcoef _ _ _ _ _ _ Hb) as [m ->]. eauto.
    + destruct (Hret cqm eq_refl) as [HK' _]. lia.
  - intros HK Hcols HX Hy Ha Hlen.
    destruct (build_cqm X y alpha K strict) as [e|cqm] eqn:Hb.
    + exfalso. revert Hb. unfold correlation_cqm. fold (n_columns X).
      rewrite (atleast_2d_ndim_le2 X HX), Hy, Ha. cbn [Nat.eqb negb].
      destruct (Z.leb_spec K 0) as [|_]; [lia|].
      assert (Haug : exists X_copy, augment (atleast_2d X) y = inr X_copy).
      { unfold augment. destruct Hlen as [Hlen|Hlen]; rewrite Hlen.
        - rewrite bool_decide_eq_true_2 by reflexivity. eauto.
        - rewrite (bool_decide_eq_true_2 (1%nat = 1%nat)) by reflexivity.
          case_bool_decide; eauto. }
      destruct Haug as [X_copy ->].
      destruct (table_shape (corrcoef X_copy) (S (n_columns X))) as [HlenT HrowsT].
      rewrite (assemble_objective_succeeds _ alpha (n_columns X) _ HlenT HrowsT Hcols).
      discriminate.
    + exists cqm. split; [reflexivity|].
      destruct (Hret cqm eq_refl) as (_ & _ & Hvars & Hcons). split; assumption.
Qed.

End ReturnedModel.

Lemma assemble_objective_coefficients_witness :
  length Demo.correlations = 4%nat /\
  Forall (fun row => length row = 4%nat) Demo.correlations /\
  (exists cqm', assemble_objective Demo.correlations (1 # 2) empty_cqm = inr cqm') /\
  (get_linear (objective (set_objective (objective_terms Demo.correlations (1 # 2)) empty_cqm)) 0 ==
   - (1 # 2) * Qabs (entry Demo.correlations 0 3))%Q /\
  (get_quadratic (objective Demo.cqm) 0 2 ==
   Qabs (Demo.corrcoef [[1; 2; 3; 0]; [4; 6; 5; 1]]%Q 0 2) +
   Qabs (Demo.corrcoef [[1; 2; 3; 0]; [4; 6; 5; 1]]%Q 2 0))%Q.
Proof.
  destruct demo_correlations_shape as [Hlen Hrows].
  split; [exact Hlen|]. split; [exact Hrows|].
  destruct (assemble_objective_coefficients Demo.corrcoef Demo.correlations (1 # 2) 3
              empty_cqm Hlen Hrows) as [Hsome [Hcoef Hmodel]].
  split; [apply Hsome; lia|]. split.
  - destruct (Hcoef (set_objective (objective_terms Demo.correlations (1 # 2)) empty_cqm))
      as (_ & _ & _ & Hlin & _); [by_evaluation|].
    apply (Hlin 0%nat). lia.
  - destruct (Hmodel Demo.X Demo.y 1 true Demo.cqm) as (X_copy & Haug & _ & Hquad);
      [by_evaluation|].
    assert (HX : X_copy = [[1; 2; 3; 0]; [4; 6; 5; 1]]%Q).
    { assert (Hc : augment (atleast_2d Demo.X) Demo.y = inr [[1; 2; 3; 0]; [4; 6; 5; 1]]%Q)
        by reflexivity.
      congruence. }
    rewrite <- HX. apply (Hquad 0%nat 2%nat); by_evaluation.
Defined.

(** C8 as stated fails on a matrix without columns: with K = 1 and valid y
    and alpha no model is returned; the iteration of line 198 raises. *)
Lemma correlation_cqm_raises_without_columns :
  0 < 1 /\
  (ndim Demo.X_no_columns <= 2)%nat /\
  ndim Demo.y = 1%nat /\
  in_unit_interval (1 # 2) = true /\
  shape_at Demo.y 0 = shape_at (atleast_2d Demo.X_no_columns) 0 /\
  correlation_cqm Demo.corrcoef Demo.X_no_columns Demo.y (1 # 2) 1 true =
    inl (ValueError msg_zero_size_iteration) /\
  correlation_cqm Demo.corrcoef Demo.X_no_columns Demo.y (1 # 2) 1 false =
    inl (ValueError msg_zero_size_iteration).
Proof. repeat split; by_evaluation. Qed.

Lemma correlation_cqm_cardinality_constraint_witness :
  (exists m, correlation_cqm Demo.corrcoef Demo.X Demo.y (1 # 2) 0 true = inl (ValueError m)) /\
  (exists cqm, correlation_cqm Demo.corrcoef Demo.X Demo.y (1 # 2) 2 false = inr cqm /\
               variables cqm = [0; 1; 2]%nat /\
               constraints cqm =
                 [{| lhs := [(0%nat, 1); (1%nat, 1); (2%nat, 1)]; cmp := SenseLe; rhs := 2 |}]) /\
  (0 < 1 /\ (0 < n_columns Demo.X)%nat /\ variables Demo.cqm = [0; 1; 2]%nat /\
   constraints Demo.cqm =
     [{| lhs := [(0%nat, 1); (1%nat, 1); (2%nat, 1)]; cmp := SenseEq; rhs := 1 |}]).
Proof.
  split; [|split].
  - apply (correlation_cqm_cardinality_constraint Demo.corrcoef Demo.X Demo.y (1 # 2) 0 true).
    lia.
  - apply (correlation_cqm_cardinality_constraint Demo.corrcoef Demo.X Demo.y (1 # 2) 2 false).
    + lia.
    + by_evaluation.
    + by_evaluation.
    + reflexivity.
    + reflexivity.
    + left. reflexivity.
  - apply (correlation_cqm_cardinality_constraint Demo.corrcoef Demo.X Demo.y (1 # 2) 1 true).
    by_evaluation.
Defined.
